(** * Careflix watch party: chat widget reducer, log grouping and the
      party-state broadcast event

    Shallow embedding of
    - [src/ui/src/screens/app.watch.home/ChatWidget/index.tsx]
      (the [reducer], [groupPartyLogs], the pusher ['log'] handler and
      [handleMessage]), and
    - the PHP event class [App\Events\PartyState].

    JavaScript exceptions (a property read on [null]) are modelled in the
    [option] monad: [None] is a thrown [TypeError]. *)

From stdpp Require Import base option list strings gmap pretty.

Open Scope string_scope.
Open Scope list_scope.

(** ** Data model *)

(** Modelled from the spec: the declaration of the ambient type [AppId] is
    missing.  The specification only asks ids to be comparable keys; in the
    code they occur both as numbers ([selectedGroupId] is compared with [-1])
    and as strings ([uuid()] in [handleMessage]), and [===] never coerces
    between the two. *)
Inductive AppId :=
  | IdNum (n : Z)
  | IdStr (s : string).

#[global] Instance AppId_eq_dec : EqDecision AppId.
Proof. solve_decision. Defined.

(** Rendering of an id inside a template literal, [`${id}`]: a string as
    it is, an integer in plain decimal (as JavaScript prints the integers it
    represents exactly, below 10^21 in absolute value). *)
Definition id_to_string (i : AppId) : string :=
  match i with
  | IdNum n => pretty n
  | IdStr s => s
  end.

(** Modelled from the spec: the declaration of the ambient type [AppUser] is
    missing.  The specification identifies a user by a user id; the widget
    reads [user.id] and [user.name]. *)
Record AppUser := {
  user_id : AppId;
  user_name : string
}.

(** [type: 'activity' | 'message'] *)
Inductive LogType := activity | message.

#[global] Instance LogType_eq_dec : EqDecision LogType.
Proof. solve_decision. Defined.

(** [log.message], with the fields of the object literal in
    [handleMessage]. *)
Record AppPartyMessage := {
  msg_id : AppId;
  msg_text : string;
  msg_user : AppUser;
  msg_created_at : string;
  msg_updated_at : string
}.

(** Modelled from the spec: the declaration of the activity payload is
    missing.  The specification gives it a text and an acting user; the
    widget reads [activity.text] and [activity.user]. *)
Record AppPartyActivity := {
  act_text : string;
  act_user : AppUser
}.

(** [AppPartyLog], with the fields of the object literal in
    [handleMessage]; [message] and [activity] are nullable, as the source
    writes them ([activity: null] for a message log). *)
Record AppPartyLog := {
  log_id : AppId;
  log_party_id : AppId;
  log_type : LogType;
  log_message : option AppPartyMessage;
  log_activity : option AppPartyActivity;
  log_created_at : string;
  log_updated_at : string
}.

(** [interface GroupedLog] *)
Record GroupedLog := {
  type : LogType;
  user : AppUser;
  logs : list AppPartyLog
}.

(** ** [groupPartyLogs] *)

(** [log[log.type].user]: reads the payload selected by the log's own type,
    and throws when that payload is [null]. *)
Definition payload_user (log : AppPartyLog) : option AppUser :=
  match log_type log with
  | activity => act_user <$> log_activity log
  | message => msg_user <$> log_message log
  end.

(** The condition of the [if] in the [forEach] callback, with JavaScript's
    short-circuit evaluation: [log.message] is read only when both type tests
    of the second disjunct have passed. *)
Definition fits_criteria (recent : GroupedLog) (log : AppPartyLog) : option bool :=
  if bool_decide (log_type log = activity) && bool_decide (type recent = log_type log)
  then Some true
  else if bool_decide (log_type log = message) && bool_decide (type recent = log_type log)
  then m ← log_message log;
       Some (bool_decide (user_id (user recent) = user_id (msg_user m)))
  else Some false.

(** [recent.logs.push(log)] on a group object. *)
Definition push_to_group (log : AppPartyLog) (g : GroupedLog) : GroupedLog :=
  {| type := type g; user := user g; logs := logs g ++ [log] |}.

(** Body of the [forEach] callback.  [last] is imported from [~/utils/last],
    whose file is missing; by its name and by the specification's "last open
    group" it is the last element of the array, and [undefined] for an empty
    one, on which [recent.type] throws.  [recent.logs.push] mutates that very
    element of [groups], which is the update of the last position here. *)
Definition group_step (groups : list GroupedLog) (log : AppPartyLog)
  : option (list GroupedLog) :=
  recent ← last groups;
  fit ← fits_criteria recent log;
  if fit : bool
  then Some (alter (push_to_group log) (pred (length groups)) groups)
  else u ← payload_user log;
       Some (groups ++ [{| type := log_type log; user := u; logs := [log] |}]).

(** [xs.forEach(f)] threading the local [groups] array. *)
Fixpoint forEach (xs : list AppPartyLog) (groups : list GroupedLog)
  : option (list GroupedLog) :=
  match xs with
  | [] => Some groups
  | log :: xs' => groups' ← group_step groups log; forEach xs' groups'
  end.

Definition groupPartyLogs (logs : list AppPartyLog) : option (list GroupedLog) :=
  match logs with
  | [] => Some []
  | first :: rest =>
      u ← payload_user first;
      forEach rest [{| type := log_type first; user := u; logs := [first] |}]
  end.

(** ** The reducer *)

(** [state.message] *)
Record MessageInput := {
  text : string
}.

(** [interface State] *)
Record State := {
  state_logs : list AppPartyLog;
  state_message : MessageInput;
  isSending : gmap Z string;
  isLoading : bool
}.

(** [type Action]; a constructor per [ReducerAction<'…', payload>]. *)
Inductive Action :=
  | request_init
  | request_error
  | request_success (payload_logs : list AppPartyLog)
  | logs_push (payload_log : AppPartyLog)
  | chat_input (payload_input : string)
  | chat_init (payload_log : AppPartyLog)
  | chat_success (payload_id : AppId) (payload_log : AppPartyLog)
  | chat_error (payload_id : AppId).

(** [const init: State] *)
Definition init : State :=
  {| state_logs := []; state_message := {| text := "" |};
     isSending := ∅; isLoading := false |}.

(** [Array.prototype.findIndex]: the index of the first element satisfying
    the predicate, and [-1] when there is none. *)
Fixpoint findIndex_from (p : AppPartyLog → bool) (xs : list AppPartyLog) (i : Z) : Z :=
  match xs with
  | [] => -1
  | x :: xs' => if p x then i else findIndex_from p xs' (i + 1)
  end.

Definition findIndex (p : AppPartyLog → bool) (xs : list AppPartyLog) : Z :=
  findIndex_from p xs 0.

(** The elements of [draft.logs] after [draft.logs[index] = v], for an
    [index] returned by [findIndex]; [state_logs] holds the elements of the
    array, in order.  An index from [0] up to [length - 1] overwrites that
    element.  A write at [-1] is not a write to an array index: it stores [v]
    as the own property ["-1"] of the new array, no element changes and
    [length] stays as it was; [chat_success_logs] below gives the array with
    that property.  ([findIndex] yields nothing else, see [findIndex_range],
    so the extension of the array by a write past its end does not arise.) *)
Definition assign_index (xs : list AppPartyLog) (index : Z) (v : AppPartyLog)
  : list AppPartyLog :=
  if decide (index < 0)%Z then xs else <[Z.to_nat index := v]> xs.

Definition reducer (state : State) (action : Action) : State :=
  match action with
  | request_init =>
      {| state_logs := state_logs state; state_message := state_message state;
         isSending := isSending state; isLoading := true |}
  | request_success payload_logs =>
      {| state_logs := payload_logs; state_message := state_message state;
         isSending := isSending state; isLoading := false |}
  | request_error =>
      {| state_logs := state_logs state; state_message := state_message state;
         isSending := isSending state; isLoading := false |}
  | logs_push payload_log =>
      {| state_logs := state_logs state ++ [payload_log];
         state_message := state_message state;
         isSending := isSending state; isLoading := isLoading state |}
  | chat_input payload_input =>
      {| state_logs := state_logs state;
         state_message := {| text := payload_input |};
         isSending := isSending state; isLoading := isLoading state |}
  | chat_init payload_log =>
      {| state_logs := state_logs state ++ [payload_log];
         state_message := {| text := "" |};
         isSending := isSending state; isLoading := isLoading state |}
  | chat_error _ =>
      (* @TODO in the source: a fresh object with the fields of [state] *)
      {| state_logs := state_logs state; state_message := state_message state;
         isSending := isSending state; isLoading := isLoading state |}
  | chat_success payload_id payload_log =>
      let index :=
        findIndex (λ log, bool_decide (log_id log = payload_id)) (state_logs state) in
      {| state_logs := assign_index (state_logs state) index payload_log;
         state_message := state_message state;
         isSending := isSending state; isLoading := isLoading state |}
  end.

(** ** Event handlers of the component *)

(** What a handler does to the world outside the reducer, in program order. *)
Inductive Effect :=
  | preventDefault
  | set_isReceiving (b : bool)
  | set_shouldScrollToBottom (b : bool)
  | dispatch (a : Action)
  | play_idleAudio
  | play_sendAudio
  | axios_post (url : string) (body : gmap string string).

#[global] Instance Effect_inhabited : Inhabited Effect := populate preventDefault.

(** The callback given to [usePusher] for the ['log'] event.  [isWindowVisible]
    is the value of [useWindowVisibility()] captured by the closure,
    [scrolledToBottom] the result of [isScrolledToBottom(chatbarRef.current)]. *)
Definition pusher_log_handler (isWindowVisible scrolledToBottom : bool)
    (event_log : AppPartyLog) : list Effect :=
  [set_isReceiving true;
   set_shouldScrollToBottom scrolledToBottom;
   dispatch (logs_push event_log)]
  ++ (if negb isWindowVisible && bool_decide (log_type event_log = message)
      then [play_idleAudio] else []).

(** The outcome [[err, res]] of the awaited request. *)
Inductive Response :=
  | response_err
  | response_ok (data : AppPartyLog).

(** What [handleMessage] reads from its closure and from the outside world:
    the render-time constant [isSubmittable], [props.party.id], [auth.data],
    [state.message.text], the results of the two [uuid()] calls and of
    [getStandardFormattedDateTime()], and the server's answer. *)
Record SubmitEnv := {
  isSubmittable : bool;
  props_party_id : AppId;
  auth_data : AppUser;
  message_text : string;
  uuid_1 : string;
  uuid_2 : string;
  date : string;
  response : Response
}.

(** The optimistic [log] object built in [handleMessage]. *)
Definition pending_log (env : SubmitEnv) : AppPartyLog :=
  {| log_id := IdStr (uuid_1 env);
     log_party_id := props_party_id env;
     log_type := message;
     log_message := Some {| msg_id := IdStr (uuid_2 env);
                            msg_text := message_text env;
                            msg_user := auth_data env;
                            msg_created_at := date env;
                            msg_updated_at := date env |};
     log_activity := None;
     log_created_at := date env;
     log_updated_at := date env |}.

Definition handleMessage (env : SubmitEnv) : list Effect :=
  if negb (isSubmittable env) then [preventDefault]
  else
    let id := IdStr (uuid_1 env) in
    [preventDefault;
     set_isReceiving false;
     dispatch (chat_init (pending_log env));
     play_sendAudio;
     axios_post ("/api/parties/" +:+ id_to_string (props_party_id env) +:+ "/logs/message")
                {[ "message" := message_text env ]}]
    ++ match response env with
       | response_err => [dispatch (chat_error id)]
       | response_ok data => [dispatch (chat_success id data)]
       end.

(** ** The broadcast event [App\Events\PartyState] *)

Module PartyState.

(** PHP values that occur in the event's data. *)
#[warnings="-register-all"]
Inductive PhpValue :=
  | PhpBool (b : bool)
  | PhpInt (n : Z)
  | PhpString (s : string)
  | PhpArray (entries : list (string * PhpValue)).

(** Modelled from the spec: the model class [App\Party] is missing.  The
    specification gives a party an identifier and the playback state
    [is_playing] (a boolean) and [current_time] (a duration).  The event
    passes the two on as they are, so they are any PHP value here. *)
Record Party := {
  id : Z;
  is_playing : PhpValue;
  current_time : PhpValue
}.

(** [Illuminate\Broadcasting\Channel] and its subclass [PrivateChannel], by
    the name given to the constructor. *)
Inductive Channel :=
  | PublicChannel (name : string)
  | PrivateChannel (name : string).

(** ['party.'.$this->party->id] *)
Definition broadcastOn (party : Party) : Channel :=
  PrivateChannel ("party." +:+ pretty (id party)).

Definition broadcastAs : string := "state".

Definition broadcastWith (party : Party) : list (string * PhpValue) :=
  [("state", PhpArray [("is_playing", is_playing party);
                       ("current_time", current_time party)])].

(** Reading a key of a PHP array. *)
Fixpoint array_get (key : string) (entries : list (string * PhpValue)) : option PhpValue :=
  match entries with
  | [] => None
  | (k, v) :: rest => if bool_decide (k = key) then Some v else array_get key rest
  end.

(** [array_keys] *)
Definition array_keys (entries : list (string * PhpValue)) : list string :=
  entries.*1.

End PartyState.

(** ** Specification-side notions for the grouping *)

(** A log entry carries the payload its [type] announces. *)
Definition well_formed (log : AppPartyLog) : Prop :=
  match log_type log with
  | activity => is_Some (log_activity log)
  | message => is_Some (log_message log)
  end.

#[global] Instance well_formed_dec log : Decision (well_formed log).
Proof. unfold well_formed. destruct (log_type log); apply _. Defined.

(** The author of a message entry (none for an entry without message). *)
Definition author (log : AppPartyLog) : option AppId :=
  (λ m, user_id (msg_user m)) <$> log_message log.

(** The merge criterion in the words of the specification: an [activity]
    entry merges into an open [activity] group, a [message] entry into an
    open [message] group by the same author. *)
Definition spec_merges (open : GroupedLog) (e : AppPartyLog) : Prop :=
  (log_type e = activity ∧ type open = activity) ∨
  (log_type e = message ∧ type open = message ∧ author e = Some (user_id (user open))).

#[global] Instance spec_merges_dec open e : Decision (spec_merges open e).
Proof. unfold spec_merges. apply _. Defined.

(** A singleton group tagged by the entry's type and user. *)
Definition singleton_group (e : AppPartyLog) (u : AppUser) : GroupedLog :=
  {| type := log_type e; user := u; logs := [e] |}.

(** The user a singleton group is tagged with, in the words of the
    specification: the author of a message entry, the actor of an activity
    entry.  Stated on the entry's fields, not through [payload_user]. *)
Definition spec_entry_user (e : AppPartyLog) (u : AppUser) : Prop :=
  match log_type e with
  | activity => ∃ a, log_activity e = Some a ∧ act_user a = u
  | message => ∃ m, log_message e = Some m ∧ msg_user m = u
  end.

(** Specification of the grouping as a left-to-right process: the first
    entry opens a singleton group tagged by its type and user; each later
    entry is appended to the members of the open (last) group when the
    criterion holds, and opens a new singleton group after it otherwise.  The
    groups are written out field by field, so that the relation says what
    "appended" and "singleton" mean on its own. *)
Inductive spec_grouping : list AppPartyLog → list GroupedLog → Prop :=
  | spec_grouping_first first u :
      spec_entry_user first u →
      spec_grouping [first] [{| type := log_type first; user := u; logs := [first] |}]
  | spec_grouping_append l gs open e :
      spec_grouping l (gs ++ [open]) →
      spec_merges open e →
      spec_grouping (l ++ [e])
        (gs ++ [{| type := type open; user := user open; logs := logs open ++ [e] |}])
  | spec_grouping_open l gs open e u :
      spec_grouping l (gs ++ [open]) →
      ¬ spec_merges open e →
      spec_entry_user e u →
      spec_grouping (l ++ [e])
        (gs ++ [open; {| type := log_type e; user := u; logs := [e] |}]).

(** Incremental extension in the words of the specification: a new entry is
    compared with the last open group only. *)
Definition spec_extend (groups : list GroupedLog) (e : AppPartyLog)
  : option (list GroupedLog) :=
  match last groups with
  | Some open =>
      if bool_decide (spec_merges open e)
      then Some (removelast groups ++ [push_to_group e open])
      else u ← payload_user e; Some (groups ++ [singleton_group e u])
  | None => u ← payload_user e; Some [singleton_group e u]
  end.

(** What every group of a result must satisfy: it has members, they are of
    the group's type, and the members of a message group are by the group's
    user. *)
Definition group_ok (g : GroupedLog) : Prop :=
  logs g ≠ [] ∧
  Forall (λ e, log_type e = type g) (logs g) ∧
  (type g = message → Forall (λ e, author e = Some (user_id (user g))) (logs g)).

(** Reconciliation in the words of the specification: replace by id. *)
Definition spec_replace_by_id (i : AppId) (v : AppPartyLog) (xs : list AppPartyLog)
  : list AppPartyLog :=
  (λ x, if bool_decide (log_id x = i) then v else x) <$> xs.

(** Whether a request body carries the given id under the key ["id"]. *)
Definition carries_id (body : gmap string string) (i : AppId) : Prop :=
  body !! "id" = Some (id_to_string i).

(** The sounds a handler run plays. *)
Inductive Sound := idle_sound | send_sound.

#[global] Instance Sound_eq_dec : EqDecision Sound.
Proof. solve_decision. Defined.


(** The actions a handler run dispatches to the reducer. *)
Definition dispatched (effects : list Effect) : list Action :=
  omap (λ eff, match eff with dispatch a => Some a | _ => None end) effects.

(** The requests a handler run sends. *)
Definition requests (effects : list Effect) : list (string * gmap string string) :=
  omap (λ eff, match eff with axios_post url body => Some (url, body) | _ => None end)
       effects.

(** Entries as the server sends them, for stating examples: an activity
    entry by [u] and a message entry by [u]. *)
Definition activity_log (i party : AppId) (u : AppUser) (txt stamp : string) : AppPartyLog :=
  {| log_id := i; log_party_id := party; log_type := activity;
     log_message := None;
     log_activity := Some {| act_text := txt; act_user := u |};
     log_created_at := stamp; log_updated_at := stamp |}.

Definition message_log (i party mid : AppId) (u : AppUser) (txt stamp : string) : AppPartyLog :=
  {| log_id := i; log_party_id := party; log_type := message;
     log_message := Some {| msg_id := mid; msg_text := txt; msg_user := u;
                            msg_created_at := stamp; msg_updated_at := stamp |};
     log_activity := None;
     log_created_at := stamp; log_updated_at := stamp |}.

(** Sample data: three users and the five entries of the specification's
    grouping example. *)
Definition user_A : AppUser := {| user_id := IdNum 1; user_name := "A" |}.
Definition user_U1 : AppUser := {| user_id := IdNum 2; user_name := "U1" |}.
Definition user_U2 : AppUser := {| user_id := IdNum 3; user_name := "U2" |}.

Definition sample_logs : list AppPartyLog :=
  [activity_log (IdNum 10) (IdNum 7) user_A "joined the room" "2019-05-01 10:00:00";
   activity_log (IdNum 11) (IdNum 7) user_A "played the video" "2019-05-01 10:00:05";
   message_log (IdNum 12) (IdNum 7) (IdNum 100) user_U1 "hi" "2019-05-01 10:00:10";
   message_log (IdNum 13) (IdNum 7) (IdNum 101) user_U1 "yo" "2019-05-01 10:00:12";
   message_log (IdNum 14) (IdNum 7) (IdNum 102) user_U2 "hey" "2019-05-01 10:00:20"].

(** A submission of the text ["hi"] by [user_U1] in party 7, answered with
    the entry as the server stored it. *)
Definition sample_submit : SubmitEnv :=
  {| isSubmittable := true;
     props_party_id := IdNum 7;
     auth_data := user_U1;
     message_text := "hi";
     uuid_1 := "0b9c2a5e-5d0e-4c57-9a43-1f0e6a7d2c11";
     uuid_2 := "5e1f7a90-3a63-4b0a-8f5d-7c2b9d4e6f22";
     date := "2019-05-01 10:00:10";
     response :=
       response_ok (message_log (IdNum 12) (IdNum 7) (IdNum 100) user_U1 "hi"
                                "2019-05-01 10:00:10") |}.

(** A state holding the two activity entries and the pending message of
    [sample_submit]. *)
Definition sample_state : State :=
  {| state_logs := take 2 sample_logs ++ [pending_log sample_submit];
     state_message := {| text := "" |};
     isSending := ∅;
     isLoading := false |}.

(** A party that is playing, 42 seconds in. *)
Definition sample_party : PartyState.Party :=
  {| PartyState.id := 7;
     PartyState.is_playing := PartyState.PhpBool true;
     PartyState.current_time := PartyState.PhpInt 42 |}.

(** ** More of the chat widget: refs, the layout effect, the initial load *)

(** The two boolean refs of the component, with the initial values given to
    [useRef]. *)
Record Refs := {
  shouldScrollToBottomRef : bool;
  isReceivingRef : bool
}.

Definition initial_refs : Refs :=
  {| shouldScrollToBottomRef := true; isReceivingRef := true |}.

(** What an effect of a handler writes to the refs. *)
Definition write_ref (refs : Refs) (eff : Effect) : Refs :=
  match eff with
  | set_isReceiving b =>
      {| shouldScrollToBottomRef := shouldScrollToBottomRef refs; isReceivingRef := b |}
  | set_shouldScrollToBottom b =>
      {| shouldScrollToBottomRef := b; isReceivingRef := isReceivingRef refs |}
  | _ => refs
  end.

(** The refs after a handler has run. *)
Definition refs_after (effects : list Effect) (refs : Refs) : Refs :=
  foldl write_ref refs effects.

(** What the callback of [React.useLayoutEffect] does, in program order. *)
Inductive LayoutStep :=
  | scrollToBottom_chatbar
  | setHasUnreadMessages (b : bool)
  | store_lastScrollDistanceFromBottom.

#[global] Instance LayoutStep_eq_dec : EqDecision LayoutStep.
Proof. solve_decision. Defined.

(** The callback of [React.useLayoutEffect], run when [state.logs.length]
    has changed. *)
Definition layoutEffect (refs : Refs) : list LayoutStep :=
  (if negb (isReceivingRef refs) || shouldScrollToBottomRef refs
   then [scrollToBottom_chatbar]
   else if isReceivingRef refs
        then [setHasUnreadMessages true]
        else [])
  ++ [store_lastScrollDistanceFromBottom].

(** The logs array as an object: its elements, and its own property
    ["-1"] when it has one. *)
Record LogsObject := {
  elements : list AppPartyLog;
  own_minus_one : option AppPartyLog
}.

(** The logs array that the [chat:success] branch leaves, with its own
    property ["-1"], from a logs array that has none yet:
    [const index = draft.logs.findIndex(log => log.id === action.payload.id)]
    and [draft.logs[index] = action.payload.log].  When no entry has the id,
    [index] is [-1] and the assignment stores the payload under the key
    ["-1"]; the elements are those of the old array.  Otherwise the element at
    [index] is overwritten. *)
Definition chat_success_logs (logs : list AppPartyLog) (payload_id : AppId)
    (payload_log : AppPartyLog) : LogsObject :=
  let index := findIndex (λ log, bool_decide (log_id log = payload_id)) logs in
  if decide (index = -1)%Z
  then {| elements := logs; own_minus_one := Some payload_log |}
  else {| elements := <[Z.to_nat index := payload_log]> logs; own_minus_one := None |}.

(** The reducer over the actions dispatched one after the other. *)
Definition run (state : State) (actions : list Action) : State :=
  foldl reducer state actions.

(** The outcome [[err, res]] of the request for the party's logs. *)
Inductive LoadResponse :=
  | load_err
  | load_ok (data : list AppPartyLog).

(** What the callback of [useAsyncEffect] does, in program order. *)
Inductive LoadEffect :=
  | load_dispatch (a : Action)
  | axios_get (url : string)
  | load_scrollToBottom.

(** The callback of [useAsyncEffect]: the initial load of the logs. *)
Definition loadLogs (party_id : AppId) (res : LoadResponse) : list LoadEffect :=
  [load_dispatch request_init;
   axios_get ("/api/parties/" +:+ id_to_string party_id +:+ "/logs")]
  ++ match res with
     | load_err => [load_dispatch request_error]
     | load_ok data => [load_dispatch (request_success data); load_scrollToBottom]
     end.

Definition load_dispatched (effects : list LoadEffect) : list Action :=
  omap (λ eff, match eff with load_dispatch a => Some a | _ => None end) effects.

(** ** More notions for the grouping *)

(** Two groups that the criterion of [groupPartyLogs] would have put
    together: two activity groups, or two message groups of one user id. *)
Definition mergeable (g1 g2 : GroupedLog) : Prop :=
  (type g1 = activity ∧ type g2 = activity) ∨
  (type g1 = message ∧ type g2 = message ∧ user_id (user g1) = user_id (user g2)).

(** No two neighbours in a group list could have been merged. *)
Definition no_adjacent_mergeable (gs : list GroupedLog) : Prop :=
  ∀ i g1 g2, gs !! i = Some g1 → gs !! S i = Some g2 → ¬ mergeable g1 g2.

(** Whether the loop reads the payload of [e], given the type of the entry
    before it ([None] for the first entry): only an activity entry that
    follows an activity entry is taken without a look at its payload. *)
Definition reads_payload (prev : option LogType) (e : AppPartyLog) : bool :=
  negb (bool_decide (log_type e = activity) && bool_decide (prev = Some activity)).

(** Every payload that the loop reads is there. *)
Fixpoint payloads_present (prev : option LogType) (ls : list AppPartyLog) : bool :=
  match ls with
  | [] => true
  | e :: ls' =>
      (if reads_payload prev e then bool_decide (is_Some (payload_user e)) else true)
      && payloads_present (Some (log_type e)) ls'
  end.

(** ** The season selection of [ShowModal] *)

Module ShowModal.

(** The fields of an episode that the component reads. *)
Record AppShowVideo := {
  video_id : AppId;
  video_title : string;
  duration : Z
}.

(** The fields of a season ([AppShowGroup]) that the component reads. *)
Record AppShowGroup := {
  id : AppId;
  title : string;
  videos : list AppShowVideo
}.

(** [interface State] *)
Record State := {
  groups : list AppShowGroup;
  selectedGroupId : AppId;
  isLoading : bool
}.

(** [type Action] *)
Inductive Action :=
  | request_init
  | request_success (payload_groups : list AppShowGroup)
  | request_error
  | modal_close
  | group_change (payload_id : AppId).

(** The number [-1] that stands for "no season selected". *)
Definition none_selected : AppId := IdNum (-1).

Definition reducer (state : State) (action : Action) : State :=
  match action with
  | request_init =>
      {| groups := []; selectedGroupId := selectedGroupId state; isLoading := true |}
  | request_success payload_groups =>
      {| groups := payload_groups;
         selectedGroupId :=
           if bool_decide (selectedGroupId state = none_selected)
           then match payload_groups with
                | g :: _ => id g
                | [] => none_selected
                end
           else selectedGroupId state;
         isLoading := false |}
  | request_error =>
      {| groups := groups state; selectedGroupId := selectedGroupId state;
         isLoading := false |}
  | modal_close =>
      {| groups := []; selectedGroupId := none_selected; isLoading := isLoading state |}
  | group_change payload_id =>
      {| groups := groups state; selectedGroupId := payload_id;
         isLoading := isLoading state |}
  end.

(** [props.initialSelectedGroupId || -1], for the optional number of the
    props: [undefined] and the falsy number [0] both give [-1]. *)
Definition initial_selectedGroupId (initialSelectedGroupId : option Z) : AppId :=
  match initialSelectedGroupId with
  | Some n => if bool_decide (n = 0%Z) then none_selected else IdNum n
  | None => none_selected
  end.

(** The initial state given to [useReducer]. *)
Definition initial_state (initialSelectedGroupId : option Z) : State :=
  {| groups := [];
     isLoading := false;
     selectedGroupId := initial_selectedGroupId initialSelectedGroupId |}.

(** [Array.prototype.find]: the first element satisfying the predicate, and
    [undefined] ([None]) when there is none. *)
Fixpoint find (p : AppShowGroup → bool) (xs : list AppShowGroup) : option AppShowGroup :=
  match xs with
  | [] => None
  | x :: xs' => if p x then Some x else find p xs'
  end.

(** The callback given to [useMemo]:
    [() => state.groups.find(group => group.id === state.selectedGroupId)].
    The component does not run it in every render, see [useMemo_group]. *)
Definition selected_group (state : State) : option AppShowGroup :=
  find (λ group, bool_decide (id group = selectedGroupId state)) (groups state).

(** The cell of [useMemo]: the dependency [state.selectedGroupId] of the
    render that last ran the callback, and the value the callback returned
    then. *)
Record Memo := {
  memo_dep : AppId;
  memo_value : option AppShowGroup
}.

(** [useMemo(callback, [state.selectedGroupId])] in a render with [state]:
    the first render (no cell yet) runs the callback; a later render runs it
    only when [state.selectedGroupId] differs from the stored dependency, and
    keeps the stored value otherwise, whatever [state.groups] has become. *)
Definition useMemo_group (cell : option Memo) (state : State) : Memo :=
  match cell with
  | Some m =>
      if bool_decide (memo_dep m = selectedGroupId state) then m
      else {| memo_dep := selectedGroupId state; memo_value := selected_group state |}
  | None =>
      {| memo_dep := selectedGroupId state; memo_value := selected_group state |}
  end.

(** [const group = useMemo(…)] over the life of the component: the first
    render with the initial state, then one render after each dispatched
    action. *)
Fixpoint rerender (cell : Memo) (state : State) (actions : list Action) : Memo * State :=
  match actions with
  | [] => (cell, state)
  | a :: rest =>
      rerender (useMemo_group (Some cell) (reducer state a)) (reducer state a) rest
  end.

Definition render_from (state : State) (actions : list Action) : Memo * State :=
  rerender (useMemo_group None state) state actions.

(** Two seasons, for examples. *)
Definition season_1 : AppShowGroup :=
  {| id := IdNum 0; title := "Season 1"; videos := [] |}.
Definition season_2 : AppShowGroup :=
  {| id := IdNum 5; title := "Season 2";
     videos := [{| video_id := IdNum 50; video_title := "Pilot"; duration := 1320 |}] |}.

End ShowModal.

(** More sample data: a message entry whose [message] is [null]. *)
Definition broken_message : AppPartyLog :=
  {| log_id := IdNum 15; log_party_id := IdNum 7; log_type := message;
     log_message := None; log_activity := None;
     log_created_at := "2019-05-01 10:00:30"; log_updated_at := "2019-05-01 10:00:30" |}.

(** An activity entry whose [activity] is [null]. *)
Definition broken_activity : AppPartyLog :=
  {| log_id := IdNum 16; log_party_id := IdNum 7; log_type := activity;
     log_message := None; log_activity := None;
     log_created_at := "2019-05-01 10:00:40"; log_updated_at := "2019-05-01 10:00:40" |}.

(** The three groups of [sample_logs]. *)
Definition sample_groups : list GroupedLog :=
  [{| type := activity; user := user_A; logs := take 2 sample_logs |};
   {| type := message; user := user_U1; logs := take 2 (drop 2 sample_logs) |};
   {| type := message; user := user_U2; logs := drop 4 sample_logs |}].

(** * Proofs *)

(** ** Grouping: the loop body *)

Section group_step_facts.
Implicit Types (gs groups : list GroupedLog) (g open recent : GroupedLog).
Implicit Types (e log : AppPartyLog) (xs l : list AppPartyLog).

Lemma alter_last {A} (f : A → A) (ys : list A) (y : A) :
  alter f (pred (length (ys ++ [y]))) (ys ++ [y]) = ys ++ [f y].
Proof.
  rewrite length_app; simpl.
  replace (pred (length ys + 1)) with (length ys + 0) by lia.
  by rewrite alter_app_r.
Qed.

(** The loop body on a group list whose last group is known. *)
Lemma group_step_snoc gs g e :
  group_step (gs ++ [g]) e =
    fit ← fits_criteria g e;
    if fit : bool then Some (gs ++ [push_to_group e g])
    else u ← payload_user e; Some (gs ++ [g; singleton_group e u]).
Proof.
  unfold group_step. rewrite last_snoc; simpl.
  destruct (fits_criteria g e) as [[]|]; simpl; [by rewrite alter_last| |done].
  destruct (payload_user e); simpl; [|done]. by rewrite <- app_assoc.
Qed.

(** With no open group the loop body throws ([recent] is [undefined]). *)
Lemma group_step_nil e : group_step [] e = None.
Proof. reflexivity. Qed.

(** The source's condition decides the specification's criterion whenever it
    evaluates, … *)
Lemma fits_criteria_true g e :
  fits_criteria g e = Some true ↔ spec_merges g e.
Proof.
  unfold fits_criteria, spec_merges, author.
  destruct (log_type e) eqn:He, (type g) eqn:Hg; simpl;
    try (split; [done | intros [[??]|(?&?&?)]; congruence]).
  - split; [by left | done].
  - destruct (log_message e) as [m|]; simpl.
    + case_bool_decide as Hid; split; try done.
      * intros _. right. by rewrite Hid.
      * intros [[??]|(_&_&[=])]; congruence.
    + split; [done | intros [[??]|(_&_&?)]; congruence].
Qed.

(** … and it throws only on an entry whose own payload is missing. *)
Lemma fits_criteria_None g e :
  fits_criteria g e = None → payload_user e = None ∧ ¬ spec_merges g e.
Proof.
  unfold fits_criteria, spec_merges, payload_user, author.
  destruct (log_type e), (type g); simpl; try done.
  destruct (log_message e); simpl; [done|]. intros _. split; [done|].
  intros [[??]|(_&_&?)]; congruence.
Qed.

Lemma fits_criteria_false g e :
  fits_criteria g e = Some false → ¬ spec_merges g e.
Proof.
  intros Hf Hm. apply fits_criteria_true in Hm. congruence.
Qed.

(** The loop body is the specification's incremental extension, as soon as
    there is an open group. *)
Lemma group_step_extend gs g e :
  group_step (gs ++ [g]) e = spec_extend (gs ++ [g]) e.
Proof.
  rewrite group_step_snoc. unfold spec_extend.
  rewrite last_snoc, removelast_last.
  destruct (fits_criteria g e) as [[]|] eqn:Hf; simpl.
  - apply fits_criteria_true in Hf. by rewrite bool_decide_eq_true_2.
  - apply fits_criteria_false in Hf. rewrite bool_decide_eq_false_2 by done.
    destruct (payload_user e); simpl; [|done]. by rewrite <- app_assoc.
  - apply fits_criteria_None in Hf as [-> Hf].
    by rewrite bool_decide_eq_false_2.
Qed.

(** The loop body never leaves the group list empty. *)
Lemma group_step_nonempty gs e gs' :
  group_step gs e = Some gs' → ∃ gs0 g, gs' = gs0 ++ [g].
Proof.
  destruct gs as [|g0 gs0] using rev_ind; [done|].
  rewrite group_step_snoc. intros H.
  destruct (fits_criteria g0 e) as [[]|]; simpl in H; [naive_solver| |done].
  destruct (payload_user e) as [u|]; simplify_eq/=.
  exists (gs0 ++ [g0]), (singleton_group e u). by rewrite <- app_assoc.
Qed.

Lemma forEach_snoc xs e gs :
  forEach (xs ++ [e]) gs = forEach xs gs ≫= λ gs', group_step gs' e.
Proof.
  revert gs. induction xs as [|x xs IH]; intros gs; simpl.
  - by destruct (group_step gs e).
  - destruct (group_step gs x); simpl; [apply IH | done].
Qed.

Lemma forEach_nonempty xs gs0 g gs' :
  forEach xs (gs0 ++ [g]) = Some gs' → ∃ gs1 g1, gs' = gs1 ++ [g1].
Proof.
  revert gs0 g. induction xs as [|x xs IH]; intros gs0 g; simpl.
  - intros [= <-]. eauto.
  - destruct (group_step (gs0 ++ [g]) x) as [gs1|] eqn:Hs; simpl; [|done].
    apply group_step_nonempty in Hs as (gs2 & g2 & ->). apply IH.
Qed.

(** A non-empty input never yields an empty result. *)
Lemma groupPartyLogs_nonempty first rest gs :
  groupPartyLogs (first :: rest) = Some gs → ∃ gs0 g, gs = gs0 ++ [g].
Proof.
  simpl. destruct (payload_user first) as [u|]; simpl; [|done].
  apply (forEach_nonempty rest []).
Qed.

(** One more entry at the end is one more run of the loop body. *)
Lemma groupPartyLogs_snoc first rest e :
  groupPartyLogs ((first :: rest) ++ [e]) =
    groupPartyLogs (first :: rest) ≫= λ gs, group_step gs e.
Proof.
  simpl. destruct (payload_user first) as [u|]; simpl; [|done].
  apply forEach_snoc.
Qed.

End group_step_facts.

(** ** Grouping: invariants of the loop *)

Section grouping_invariants.
Implicit Types (gs : list GroupedLog) (g : GroupedLog).
Implicit Types (e first : AppPartyLog) (xs rest ls : list AppPartyLog).

Lemma well_formed_payload_user e :
  well_formed e → is_Some (payload_user e).
Proof.
  unfold well_formed, payload_user.
  destruct (log_type e); intros [x ->]; simpl; eauto.
Qed.

Lemma payload_user_author e u :
  log_type e = message → payload_user e = Some u → author e = Some (user_id u).
Proof.
  unfold payload_user, author. intros ->.
  destruct (log_message e); simpl; naive_solver.
Qed.

Lemma group_step_total gs g e :
  well_formed e → is_Some (group_step (gs ++ [g]) e).
Proof.
  intros [u Hu]%well_formed_payload_user. rewrite group_step_snoc.
  destruct (fits_criteria g e) as [[]|] eqn:Hf; simpl; [eauto| |].
  - rewrite Hu; simpl; eauto.
  - apply fits_criteria_None in Hf as [Hf _]. congruence.
Qed.

Lemma forEach_total xs gs g :
  Forall well_formed xs → is_Some (forEach xs (gs ++ [g])).
Proof.
  intros Hxs. revert gs g.
  induction Hxs as [|x xs Hx _ IH]; intros gs g; simpl; [eauto|].
  destruct (group_step_total gs g x Hx) as [gs' Hs]. rewrite Hs; simpl.
  apply group_step_nonempty in Hs as (gs1 & g1 & ->). apply IH.
Qed.

(** On well-formed entries the function returns. *)
Lemma groupPartyLogs_total ls :
  Forall well_formed ls → is_Some (groupPartyLogs ls).
Proof.
  destruct ls as [|first rest]; [by eexists|].
  intros [Hw Hrest]%Forall_cons. simpl.
  destruct (well_formed_payload_user first Hw) as [u ->]; simpl.
  apply (forEach_total rest [] _ Hrest).
Qed.

Lemma singleton_group_ok e u :
  payload_user e = Some u → group_ok (singleton_group e u).
Proof.
  intros Hu. repeat split; simpl; [done|by constructor|].
  intros He. constructor; [|done]. by apply payload_user_author.
Qed.

Lemma push_to_group_ok g e :
  spec_merges g e → group_ok g → group_ok (push_to_group e g).
Proof.
  intros Hm (Hne & Hty & Hau). repeat split; simpl.
  - by destruct (logs g).
  - apply Forall_app; split; [done|]. constructor; [|done].
    destruct Hm as [[??]|(?&?&?)]; congruence.
  - intros Hg. apply Forall_app; split; [by apply Hau|]. constructor; [|done].
    destruct Hm as [[??]|(?&?&?)]; [congruence|done].
Qed.

Lemma concat_logs_snoc gs g :
  concat (logs <$> gs ++ [g]) = concat (logs <$> gs) ++ logs g.
Proof. rewrite fmap_app, concat_app; simpl. by rewrite app_nil_r. Qed.

(** One run of the loop body keeps every group in order and adds the entry
    at the very end of the flattened groups. *)
Lemma group_step_inv gs e gs' :
  group_step gs e = Some gs' →
  Forall group_ok gs →
  Forall group_ok gs' ∧ concat (logs <$> gs') = concat (logs <$> gs) ++ [e].
Proof.
  destruct gs as [|g gs _] using rev_ind; [done|].
  rewrite group_step_snoc. intros Hs [Hgs Hg%Forall_inv]%Forall_app.
  destruct (fits_criteria g e) as [[]|] eqn:Hf; simpl in Hs; [| |done].
  - injection Hs as <-. apply fits_criteria_true in Hf. split.
    + apply Forall_app; split; [done|]. apply Forall_singleton.
      by apply push_to_group_ok.
    + rewrite !concat_logs_snoc; simpl. by rewrite app_assoc.
  - destruct (payload_user e) as [u|] eqn:Hu; simplify_eq/=. split.
    + apply Forall_app; split; [done|].
      apply Forall_cons; split; [done|].
      apply Forall_singleton. by apply singleton_group_ok.
    + replace (gs ++ [g; singleton_group e u])
        with ((gs ++ [g]) ++ [singleton_group e u]) by by rewrite <- app_assoc.
      by rewrite (concat_logs_snoc (gs ++ [g])).
Qed.

Lemma forEach_inv xs gs gs' :
  forEach xs gs = Some gs' →
  Forall group_ok gs →
  Forall group_ok gs' ∧ concat (logs <$> gs') = concat (logs <$> gs) ++ xs.
Proof.
  revert gs. induction xs as [|x xs IH]; intros gs; simpl.
  - intros [= <-] ?. by rewrite app_nil_r.
  - destruct (group_step gs x) as [gs1|] eqn:Hs; simpl; [|done].
    intros Hxs Hgs. destruct (group_step_inv _ _ _ Hs Hgs) as [Hok Hcat].
    destruct (IH _ Hxs Hok) as [Hok' Hcat']. split; [done|].
    by rewrite Hcat', Hcat, <- app_assoc.
Qed.

(** Whatever the function returns is an order-preserving partition. *)
Lemma groupPartyLogs_inv ls gs :
  groupPartyLogs ls = Some gs →
  Forall group_ok gs ∧ concat (logs <$> gs) = ls.
Proof.
  destruct ls as [|first rest]; simpl; [by intros [= <-]|].
  destruct (payload_user first) as [u|] eqn:Hu; simpl; [|done].
  intros Hf. apply forEach_inv in Hf; [done|].
  apply Forall_singleton. by apply (singleton_group_ok first u).
Qed.

End grouping_invariants.

(** ** Grouping: the specification's process is deterministic *)

Lemma spec_grouping_input_nonempty l gs :
  spec_grouping l gs → l ≠ [].
Proof. destruct 1; [done|by destruct l..]. Qed.

Lemma spec_entry_user_functional e u u' :
  spec_entry_user e u → spec_entry_user e u' → u = u'.
Proof.
  unfold spec_entry_user.
  destruct (log_type e); intros (x & Hx & <-) (y & Hy & <-); congruence.
Qed.

(** The code reads the user the specification names. *)
Lemma payload_user_spec e u :
  payload_user e = Some u → spec_entry_user e u.
Proof.
  unfold payload_user, spec_entry_user. destruct (log_type e).
  - destruct (log_activity e) as [a|]; simpl; [|done]. intros [= <-]. by exists a.
  - destruct (log_message e) as [m|]; simpl; [|done]. intros [= <-]. by exists m.
Qed.

Lemma spec_grouping_functional l gs gs' :
  spec_grouping l gs → spec_grouping l gs' → gs = gs'.
Proof.
  intros H. revert gs'.
  induction H as [first u Hu|l gs open e H IH Hm|l gs open e u H IH Hm Hu];
    intros gs' H'.
  - inversion H' as [first' u' Hu' Hl|l' gs1 open' e' H1 Hm' Hl|l' gs1 open' e' u' H1 Hm' Hu' Hl];
      subst.
    + by rewrite (spec_entry_user_functional _ _ _ Hu Hu').
    + destruct l' as [|? [|]]; simplify_eq/=.
      by apply spec_grouping_input_nonempty in H1.
    + destruct l' as [|? [|]]; simplify_eq/=.
      by apply spec_grouping_input_nonempty in H1.
  - inversion H' as [first' u' Hu' Hl|l' gs1 open' e' H1 Hm' Hl|l' gs1 open' e' u' H1 Hm' Hu' Hl].
    + destruct l as [|? [|]]; simplify_eq/=.
      by apply spec_grouping_input_nonempty in H.
    + apply app_inj_tail in Hl as [-> ->].
      apply IH, app_inj_tail in H1 as [-> ->]. done.
    + apply app_inj_tail in Hl as [-> ->].
      apply IH, app_inj_tail in H1 as [-> ->]. done.
  - inversion H' as [first' u' Hu' Hl|l' gs1 open' e' H1 Hm' Hl|l' gs1 open' e' u' H1 Hm' Hu' Hl].
    + destruct l as [|? [|]]; simplify_eq/=.
      by apply spec_grouping_input_nonempty in H.
    + apply app_inj_tail in Hl as [-> ->].
      apply IH, app_inj_tail in H1 as [-> ->]. done.
    + apply app_inj_tail in Hl as [-> ->].
      apply IH, app_inj_tail in H1 as [-> ->].
      by rewrite (spec_entry_user_functional _ _ _ Hu Hu').
Qed.

(** ** Grouping: the claims *)

(** C1.  On a non-empty list of well-formed entries, [groupPartyLogs]
    returns, and its result is the one the left-to-right process of the
    specification produces: the first entry opens a singleton group; each
    later entry joins the open (last) group exactly when it is an activity
    entry and the open group an activity group, or a message entry and the
    open group a message group by the same author; otherwise it opens a new
    singleton group after the open one.  Appending keeps the group's type
    and user and puts the entry after its members; a singleton group has the
    entry's type, the entry's own user (the author of a message, the actor of
    an activity) and the entry as its only member.  That process has one
    outcome only, so it is the result of the function. *)
Theorem groupPartyLogs_left_to_right (first : AppPartyLog) (rest : list AppPartyLog) :
  Forall well_formed (first :: rest) →
  ∃ gs, groupPartyLogs (first :: rest) = Some gs ∧
        spec_grouping (first :: rest) gs ∧
        ∀ gs', spec_grouping (first :: rest) gs' → gs' = gs.
Proof.
  intros Hw.
  cut (∃ gs, groupPartyLogs (first :: rest) = Some gs ∧ spec_grouping (first :: rest) gs).
  { intros (gs & Hgs & Hspec). exists gs. split_and!; [done..|].
    intros gs' Hspec'. by apply (spec_grouping_functional (first :: rest)). }
  revert Hw. induction rest as [|e rest IH] using rev_ind.
  - intros [Hw _]%Forall_cons.
    destruct (well_formed_payload_user first Hw) as [u Hu].
    exists [{| type := log_type first; user := u; logs := [first] |}].
    split; [simpl; by rewrite Hu|].
    constructor. by apply payload_user_spec.
  - rewrite app_comm_cons. intros [Hrest He%Forall_inv]%Forall_app.
    destruct (IH Hrest) as (gs & Hgs & Hspec).
    destruct (groupPartyLogs_nonempty _ _ _ Hgs) as (gs0 & open & ->).
    rewrite groupPartyLogs_snoc, Hgs; simpl. rewrite group_step_snoc.
    destruct (well_formed_payload_user e He) as [u Hu].
    destruct (fits_criteria open e) as [[]|] eqn:Hf; simpl.
    + eexists; split; [done|].
      apply (spec_grouping_append (first :: rest)); [done|].
      by apply fits_criteria_true.
    + rewrite Hu; simpl. eexists; split; [done|].
      apply (spec_grouping_open (first :: rest)); [done| |].
      * by apply fits_criteria_false.
      * by apply payload_user_spec.
    + apply fits_criteria_None in Hf as [Hf _]. congruence.
Qed.

Lemma groupPartyLogs_left_to_right_witness :
  ∃ gs, groupPartyLogs sample_logs = Some gs ∧
        spec_grouping sample_logs gs ∧
        ∀ gs', spec_grouping sample_logs gs' → gs' = gs.
Proof.
  apply (groupPartyLogs_left_to_right
           (activity_log (IdNum 10) (IdNum 7) user_A "joined the room" "2019-05-01 10:00:00")).
  repeat constructor; vm_compute; eauto.
Defined.

(** C2.  The specification's example: two activity entries by [A], two
    messages by [U1] and one message by [U2] (a user other than [U1]) are
    grouped into exactly three groups, in this order: the activity group of
    the two activity entries, the message group of [U1] with two entries,
    and the message group of [U2] with one entry. *)
Theorem groupPartyLogs_example (A U1 U2 : AppUser) (party i1 i2 i3 i4 i5 m3 m4 m5 : AppId)
    (t1 t2 s1 s2 s3 s4 s5 : string) :
  user_id U1 ≠ user_id U2 →
  groupPartyLogs
    [activity_log i1 party A t1 s1; activity_log i2 party A t2 s2;
     message_log i3 party m3 U1 "hi" s3; message_log i4 party m4 U1 "yo" s4;
     message_log i5 party m5 U2 "hey" s5]
  = Some
      [{| type := activity; user := A;
          logs := [activity_log i1 party A t1 s1; activity_log i2 party A t2 s2] |};
       {| type := message; user := U1;
          logs := [message_log i3 party m3 U1 "hi" s3; message_log i4 party m4 U1 "yo" s4] |};
       {| type := message; user := U2;
          logs := [message_log i5 party m5 U2 "hey" s5] |}].
Proof.
  intros Hne. unfold groupPartyLogs; simpl.
  unfold group_step, fits_criteria; simpl.
  rewrite bool_decide_eq_true_2 by done; simpl.
  unfold group_step, fits_criteria; simpl.
  rewrite bool_decide_eq_false_2 by done; simpl.
  reflexivity.
Qed.

Lemma groupPartyLogs_example_witness :
  groupPartyLogs sample_logs
  = Some
      [{| type := activity; user := user_A; logs := take 2 sample_logs |};
       {| type := message; user := user_U1; logs := take 2 (drop 2 sample_logs) |};
       {| type := message; user := user_U2; logs := drop 4 sample_logs |}].
Proof.
  apply (groupPartyLogs_example user_A user_U1 user_U2). vm_compute. discriminate.
Defined.

(** C3.  Incremental extension agrees with a full re-run: grouping
    [l ++ [e]] is grouping [l] and then comparing [e] with the last open
    group only, appending [e] to that group when the merge criterion holds
    and appending a new singleton group otherwise (also when [l] is empty and
    there is no open group).  The equation holds for every [l] and [e], both
    sides throwing together; on well-formed entries both sides return. *)
Theorem groupPartyLogs_incremental (l : list AppPartyLog) (e : AppPartyLog) :
  groupPartyLogs (l ++ [e]) = (groupPartyLogs l ≫= λ gs, spec_extend gs e) ∧
  (Forall well_formed (l ++ [e]) → is_Some (groupPartyLogs (l ++ [e]))).
Proof.
  split; [|apply groupPartyLogs_total].
  destruct l as [|first rest].
  - simpl. unfold spec_extend; simpl. by destruct (payload_user e).
  - rewrite groupPartyLogs_snoc.
    destruct (groupPartyLogs (first :: rest)) as [gs|] eqn:Hgs; simpl; [|done].
    destruct (groupPartyLogs_nonempty _ _ _ Hgs) as (gs0 & open & ->).
    apply group_step_extend.
Qed.

Lemma groupPartyLogs_incremental_witness :
  groupPartyLogs (take 4 sample_logs ++ drop 4 sample_logs)
  = Some
      [{| type := activity; user := user_A; logs := take 2 sample_logs |};
       {| type := message; user := user_U1; logs := take 2 (drop 2 sample_logs) |};
       {| type := message; user := user_U2; logs := drop 4 sample_logs |}].
Proof.
  etrans;
    [exact (proj1 (groupPartyLogs_incremental
                     (take 4 sample_logs)
                     (message_log (IdNum 14) (IdNum 7) (IdNum 102) user_U2 "hey"
                                  "2019-05-01 10:00:20")))
    |vm_compute; reflexivity].
Defined.

(** C9.  On well-formed entries the result is an order-preserving
    partition of the input: the members of the returned groups, concatenated
    in order, are exactly the input list; every group has a member; every
    member has the type of its group; every member of a message group is by
    the group's user; and the empty list yields no group. *)
Theorem groupPartyLogs_partition (ls : list AppPartyLog) :
  Forall well_formed ls →
  ∃ gs, groupPartyLogs ls = Some gs ∧
        concat (logs <$> gs) = ls ∧
        Forall group_ok gs ∧
        (ls = [] → gs = []).
Proof.
  intros Hw. destruct (groupPartyLogs_total ls Hw) as [gs Hgs].
  exists gs. destruct (groupPartyLogs_inv ls gs Hgs) as [Hok Hcat].
  repeat split; [done..|]. intros ->. simpl in Hgs. congruence.
Qed.

Lemma groupPartyLogs_partition_witness :
  ∃ gs, groupPartyLogs sample_logs = Some gs ∧
        concat (logs <$> gs) = sample_logs ∧
        Forall group_ok gs ∧
        (sample_logs = [] → gs = []).
Proof.
  apply (groupPartyLogs_partition sample_logs).
  repeat constructor; vm_compute; eauto.
Defined.

(** ** The reducer: [findIndex] and the indexed write *)

Section findIndex_facts.
Context (p : AppPartyLog → bool).
Implicit Types (xs : list AppPartyLog) (i : Z).

Lemma findIndex_from_range xs i :
  findIndex_from p xs i = (-1)%Z ∨
  (i ≤ findIndex_from p xs i < i + Z.of_nat (length xs))%Z.
Proof.
  revert i. induction xs as [|x xs IH]; intros i; simpl; [by left|].
  destruct (p x); [right; lia|].
  destruct (IH (i + 1)%Z) as [->|?]; [by left|right; lia].
Qed.

(** [findIndex] yields [-1] or the index of an element. *)
Lemma findIndex_range xs :
  findIndex p xs = (-1)%Z ∨ (0 ≤ findIndex p xs < Z.of_nat (length xs))%Z.
Proof. apply (findIndex_from_range xs 0). Qed.

Lemma findIndex_from_first (l1 : list AppPartyLog) x l2 i :
  Forall (λ y, p y = false) l1 → p x = true →
  findIndex_from p (l1 ++ x :: l2) i = (i + Z.of_nat (length l1))%Z.
Proof.
  intros Hl1 Hx. revert i.
  induction Hl1 as [|y l1 Hy _ IH]; intros i; simpl.
  - rewrite Hx. lia.
  - rewrite Hy, IH. lia.
Qed.

Lemma findIndex_first (l1 : list AppPartyLog) x l2 :
  Forall (λ y, p y = false) l1 → p x = true →
  findIndex p (l1 ++ x :: l2) = Z.of_nat (length l1).
Proof. intros. unfold findIndex. rewrite findIndex_from_first by done. lia. Qed.

(** An element satisfying the predicate gives a first such element. *)
Lemma first_match xs x :
  x ∈ xs → p x = true →
  ∃ l1 y l2, xs = l1 ++ y :: l2 ∧ Forall (λ z, p z = false) l1 ∧ p y = true.
Proof.
  induction xs as [|z xs IH]; [by intros ?%elem_of_nil|].
  intros Hin Hx. destruct (p z) eqn:Hz.
  - by exists [], z, xs.
  - apply elem_of_cons in Hin as [->|Hin]; [congruence|].
    destruct (IH Hin Hx) as (l1 & y & l2 & -> & Hl1 & Hy).
    exists (z :: l1), y, l2. split_and!; [done|by constructor|done].
Qed.

End findIndex_facts.

Lemma assign_index_nat xs (n : nat) v :
  assign_index xs (Z.of_nat n) v = <[n := v]> xs.
Proof.
  unfold assign_index. rewrite decide_False by lia. by rewrite Nat2Z.id.
Qed.

(** The [chat:success] branch on a log list whose first entry with the
    payload id is known. *)
Lemma chat_success_first state pid v l1 x l2 :
  state_logs state = l1 ++ x :: l2 →
  Forall (λ y, log_id y ≠ pid) l1 → log_id x = pid →
  state_logs (reducer state (chat_success pid v)) = l1 ++ v :: l2.
Proof.
  intros Hlogs Hl1 Hx. simpl. rewrite Hlogs.
  rewrite findIndex_first, assign_index_nat.
  - replace (length l1) with (length l1 + 0) by lia.
    by rewrite insert_app_r.
  - eapply Forall_impl; [done|]. intros y Hy; simpl. by apply bool_decide_eq_false.
  - by apply bool_decide_eq_true.
Qed.

Lemma spec_replace_by_id_other pid v xs :
  Forall (λ y, log_id y ≠ pid) xs → spec_replace_by_id pid v xs = xs.
Proof.
  unfold spec_replace_by_id. induction 1 as [|y xs Hy _ IH]; [done|].
  rewrite fmap_cons, bool_decide_eq_false_2 by done. by f_equal.
Qed.

(** Without an entry of the payload id, [findIndex] yields [-1] and the
    write, which the source does not guard, changes no element. *)
Lemma chat_success_missing_id state pid v :
  Forall (λ y, log_id y ≠ pid) (state_logs state) →
  findIndex (λ log, bool_decide (log_id log = pid)) (state_logs state) = (-1)%Z ∧
  state_logs (reducer state (chat_success pid v)) = state_logs state.
Proof.
  intros Hall.
  assert (∀ i, findIndex_from (λ log, bool_decide (log_id log = pid))
                 (state_logs state) i = (-1)%Z) as Hnone.
  { induction Hall as [|y ys Hy _ IH]; intros i; simpl; [done|].
    by rewrite bool_decide_eq_false_2. }
  split; [apply Hnone|]. simpl. unfold findIndex. by rewrite Hnone.
Qed.

(** ** The reducer: the claims *)

(** C7.  When [chat:success] arrives for a pending entry that is in the log
    list under its client-generated id (and is the first entry with that id),
    the reducer puts the authoritative entry in the place of that entry:
    the entries before and after it, the length of the list and the order are
    as before, as are the other fields of the state; when no later entry has
    the id either, this is the replace-by-id mapping of the specification. *)
Theorem chat_success_replaces_pending (state : State) (pid : AppId)
    (authoritative pending : AppPartyLog) (before after : list AppPartyLog) :
  state_logs state = before ++ pending :: after →
  log_id pending = pid →
  Forall (λ x, log_id x ≠ pid) before →
  let state' := reducer state (chat_success pid authoritative) in
  state_logs state' = before ++ authoritative :: after ∧
  length (state_logs state') = length (state_logs state) ∧
  state_logs state' !! length before = Some authoritative ∧
  (∀ j, j ≠ length before → state_logs state' !! j = state_logs state !! j) ∧
  state_message state' = state_message state ∧
  isSending state' = isSending state ∧
  isLoading state' = isLoading state ∧
  (Forall (λ x, log_id x ≠ pid) after →
   state_logs state' = spec_replace_by_id pid authoritative (state_logs state)).
Proof.
  intros Hlogs Hpid Hbefore state'.
  assert (state_logs state' = before ++ authoritative :: after) as Hnew
    by by eapply chat_success_first.
  rewrite Hnew, Hlogs. split_and!; try done.
  - by rewrite !length_app.
  - by rewrite list_lookup_middle.
  - intros j Hj. destruct (decide (j < length before)) as [Hlt|Hge].
    + by rewrite !lookup_app_l.
    + rewrite !lookup_app_r by lia.
      destruct (j - length before) as [|k] eqn:Hk; [lia|done].
  - intros Hafter. unfold spec_replace_by_id. rewrite fmap_app, fmap_cons.
    rewrite bool_decide_eq_true_2 by done.
    fold (spec_replace_by_id pid authoritative before).
    fold (spec_replace_by_id pid authoritative after).
    by rewrite !spec_replace_by_id_other.
Qed.

Lemma chat_success_replaces_pending_witness :
  state_logs
    (reducer sample_state
       (chat_success (log_id (pending_log sample_submit))
          (message_log (IdNum 12) (IdNum 7) (IdNum 100) user_U1 "hi" "2019-05-01 10:00:10")))
  = take 2 sample_logs
    ++ [message_log (IdNum 12) (IdNum 7) (IdNum 100) user_U1 "hi" "2019-05-01 10:00:10"].
Proof.
  refine (proj1 (chat_success_replaces_pending sample_state _ _
                   (pending_log sample_submit) (take 2 sample_logs) [] _ _ _)).
  - reflexivity.
  - reflexivity.
  - repeat constructor; vm_compute; discriminate.
Defined.

(** C8.  [chat:error] leaves the state as it is, whatever the state and the
    id: no field changes, and a pending entry that [chat:init] appended is
    still in the log list afterwards. *)
Theorem chat_error_is_stub (state : State) (pid : AppId) (pending : AppPartyLog) :
  reducer state (chat_error pid) = state ∧
  reducer (reducer state (chat_init pending)) (chat_error pid)
    = reducer state (chat_init pending) ∧
  pending ∈ state_logs (reducer (reducer state (chat_init pending)) (chat_error pid)).
Proof.
  split_and!.
  - by destruct state.
  - reflexivity.
  - simpl. apply elem_of_app. right. by apply list_elem_of_singleton.
Qed.

(** C10.  If some entry of [state.logs] has the id of the [chat:success]
    payload, the [findIndex] lookup does not return [-1]: it returns the
    index of an entry with that id, below the length of the list, and the
    write at that index overwrites this entry (the write at [-1] does not
    happen). *)
Theorem chat_success_index_in_bounds (state : State) (pid : AppId) (v : AppPartyLog) :
  (∃ e, e ∈ state_logs state ∧ log_id e = pid) →
  let index :=
    findIndex (λ log, bool_decide (log_id log = pid)) (state_logs state) in
  index ≠ (-1)%Z ∧
  (0 ≤ index < Z.of_nat (length (state_logs state)))%Z ∧
  (∃ e, state_logs state !! Z.to_nat index = Some e ∧ log_id e = pid) ∧
  state_logs (reducer state (chat_success pid v))
    = <[Z.to_nat index := v]> (state_logs state) ∧
  state_logs (reducer state (chat_success pid v)) !! Z.to_nat index = Some v.
Proof.
  intros (e & Hin & He) index.
  destruct (first_match (λ log, bool_decide (log_id log = pid)) _ e Hin)
    as (l1 & y & l2 & Hlogs & Hl1 & Hy); [by apply bool_decide_eq_true|].
  assert (index = Z.of_nat (length l1)) as Hindex.
  { unfold index. rewrite Hlogs. by apply findIndex_first. }
  assert (length l1 < length (state_logs state)) as Hlt.
  { rewrite Hlogs, length_app; simpl. lia. }
  assert (state_logs (reducer state (chat_success pid v))
          = <[Z.to_nat index := v]> (state_logs state)) as Hwrite.
  { simpl. fold index. rewrite Hindex, assign_index_nat. by rewrite Nat2Z.id. }
  rewrite Hwrite, Hindex, Nat2Z.id. split_and!; try lia; try done.
  - exists y. split; [|by apply bool_decide_eq_true in Hy].
    rewrite Hlogs. by apply list_lookup_middle.
  - by apply list_lookup_insert_eq.
Qed.

Lemma chat_success_index_in_bounds_witness :
  findIndex (λ log, bool_decide (log_id log = log_id (pending_log sample_submit)))
            (state_logs sample_state) ≠ (-1)%Z.
Proof.
  refine (proj1 (chat_success_index_in_bounds sample_state _
                   (pending_log sample_submit) _)).
  exists (pending_log sample_submit). split; [|reflexivity].
  apply elem_of_app. right. apply list_elem_of_singleton. reflexivity.
Defined.

(** ** The handlers: the claims *)

Lemma handleMessage_requests env :
  isSubmittable env = true →
  requests (handleMessage env) =
    [("/api/parties/" +:+ id_to_string (props_party_id env) +:+ "/logs/message",
      {[ "message" := message_text env ]})].
Proof.
  intros Hs. unfold handleMessage. rewrite Hs; simpl.
  by destruct (response env).
Qed.


(** C4, as the claim states it, fails: the request of [sample_submit] is a
    single POST whose body has the message text and no ["id"]; the
    client-generated id is not in it. *)
Lemma handleMessage_request_without_id :
  requests (handleMessage sample_submit)
    = [("/api/parties/7/logs/message", {[ "message" := "hi" ]})] ∧
  ({[ "message" := "hi" ]} : gmap string string) !! "id" = None ∧
  Forall (λ r, ¬ carries_id r.2 (log_id (pending_log sample_submit)))
         (requests (handleMessage sample_submit)).
Proof.
  split_and!.
  - rewrite handleMessage_requests by done. reflexivity.
  - reflexivity.
  - rewrite handleMessage_requests by done.
    apply Forall_singleton. unfold carries_id; simpl.
    rewrite lookup_singleton_ne; done.
Qed.

(** C4, amended.  A submission sends one request, to the party's
    [logs/message] endpoint, whose body is the message text alone: there is
    no ["id"] in it.  The client-generated id stays in the client: it is the
    id of the optimistic entry given to [chat:init], and the id given to the
    [chat:success] or [chat:error] action that follows the answer. *)
Theorem handleMessage_id_stays_local (env : SubmitEnv) :
  isSubmittable env = true →
  requests (handleMessage env) =
    [("/api/parties/" +:+ id_to_string (props_party_id env) +:+ "/logs/message",
      {[ "message" := message_text env ]})] ∧
  Forall (λ r, r.2 !! "id" = None) (requests (handleMessage env)) ∧
  log_id (pending_log env) = IdStr (uuid_1 env) ∧
  dispatched (handleMessage env) =
    [chat_init (pending_log env);
     match response env with
     | response_err => chat_error (IdStr (uuid_1 env))
     | response_ok data => chat_success (IdStr (uuid_1 env)) data
     end].
Proof.
  intros Hs. rewrite handleMessage_requests by done. split_and!; [done| |done|].
  - apply Forall_singleton; simpl. by rewrite lookup_singleton_ne.
  - unfold handleMessage. rewrite Hs; simpl. by destruct (response env).
Qed.

Lemma handleMessage_id_stays_local_witness :
  requests (handleMessage sample_submit)
    = [("/api/parties/7/logs/message", {[ "message" := "hi" ]})].
Proof.
  exact (proj1 (handleMessage_id_stays_local sample_submit eq_refl)).
Defined.


(** ** The broadcast event: the claims *)

(** C6, as the claim states it, fails: the data of the event for
    [sample_party] has the single key ["state"]; [is_playing] and
    [current_time] are not keys of the payload itself. *)
Lemma broadcastWith_keys_sample :
  PartyState.array_keys (PartyState.broadcastWith sample_party) = ["state"] ∧
  PartyState.array_get "is_playing" (PartyState.broadcastWith sample_party) = None ∧
  PartyState.array_get "current_time" (PartyState.broadcastWith sample_party) = None.
Proof. by split_and!. Qed.

(** C6, amended.  The event goes to the private channel made from the name
    ["party." ++ id], under the event name ["state"]; its payload has the
    single key ["state"], whose value has exactly the keys [is_playing] and
    [current_time], with the values the party has for them. *)
Theorem broadcast_state_event (party : PartyState.Party) :
  PartyState.broadcastOn party
    = PartyState.PrivateChannel ("party." +:+ pretty (PartyState.id party)) ∧
  PartyState.broadcastAs = "state" ∧
  PartyState.array_keys (PartyState.broadcastWith party) = ["state"] ∧
  ∃ inner,
    PartyState.array_get "state" (PartyState.broadcastWith party)
      = Some (PartyState.PhpArray inner) ∧
    PartyState.array_keys inner = ["is_playing"; "current_time"] ∧
    PartyState.array_get "is_playing" inner = Some (PartyState.is_playing party) ∧
    PartyState.array_get "current_time" inner = Some (PartyState.current_time party).
Proof.
  split_and!; [done..|]. eexists. by split_and!.
Qed.

(** The channel of party 7 is made from the name ["party.7"]. *)
Example broadcastOn_sample :
  PartyState.broadcastOn sample_party = PartyState.PrivateChannel "party.7".
Proof. reflexivity. Qed.

(** * Further properties *)

(** ** Grouping: what the loop keeps *)

Section grouping_more.
Implicit Types (gs pre : list GroupedLog) (g : GroupedLog).
Implicit Types (e first : AppPartyLog) (xs ys rest ls : list AppPartyLog).

(** A property of the group list that the first group has and every run of
    the loop body keeps is a property of the result. *)
Lemma groupPartyLogs_keeps (P : list GroupedLog → Prop) ls gs :
  P [] →
  (∀ e u, payload_user e = Some u → P [singleton_group e u]) →
  (∀ gs0 e gs1, P gs0 → group_step gs0 e = Some gs1 → P gs1) →
  groupPartyLogs ls = Some gs → P gs.
Proof.
  intros Hnil Hfirst Hstep. destruct ls as [|first rest]; simpl; [by intros [= <-]|].
  destruct (payload_user first) as [u|] eqn:Hu; simpl; [|done].
  specialize (Hfirst first u Hu). unfold singleton_group in Hfirst.
  revert Hfirst. generalize [{| type := log_type first; user := u; logs := [first] |}].
  induction rest as [|x rest IH]; intros gs0 Hgs0; simpl; [by intros [= <-]|].
  destruct (group_step gs0 x) as [gs1|] eqn:Hs; simpl; [|done]. eauto.
Qed.

Lemma forEach_app xs ys gs :
  forEach (xs ++ ys) gs = forEach xs gs ≫= forEach ys.
Proof.
  revert gs. induction xs as [|x xs IH]; intros gs; simpl; [done|].
  destruct (group_step gs x); simpl; [apply IH|done].
Qed.

(** The loop body looks at the last group only: groups before it are
    carried along. *)
Lemma group_step_prefix pre gs g e :
  group_step (pre ++ gs ++ [g]) e = (pre ++.) <$> group_step (gs ++ [g]) e.
Proof.
  rewrite (app_assoc pre), !group_step_snoc.
  destruct (fits_criteria g e) as [[]|]; simpl; [by rewrite app_assoc| |done].
  destruct (payload_user e); simpl; [|done]. by rewrite <- app_assoc.
Qed.

Lemma forEach_prefix xs pre gs g :
  forEach xs (pre ++ gs ++ [g]) = (pre ++.) <$> forEach xs (gs ++ [g]).
Proof.
  revert gs g. induction xs as [|x xs IH]; intros gs g; simpl; [done|].
  rewrite group_step_prefix.
  destruct (group_step (gs ++ [g]) x) as [gs1|] eqn:Hs; simpl; [|done].
  apply group_step_nonempty in Hs as (gs2 & g2 & ->). apply IH.
Qed.

Lemma mergeable_push_r g1 g e :
  mergeable g1 (push_to_group e g) ↔ mergeable g1 g.
Proof. done. Qed.

(** An entry that the loop body does not put into the open group opens a
    group that could not be merged with it. *)
Lemma fits_criteria_false_mergeable g e u :
  fits_criteria g e = Some false → payload_user e = Some u →
  ¬ mergeable g (singleton_group e u).
Proof.
  unfold fits_criteria, payload_user, mergeable; simpl.
  destruct (log_type e), (type g); simpl; try done;
    try (intros _ _ [[??]|(?&?&?)]; congruence).
  destruct (log_message e) as [m|]; simpl; [|done].
  case_bool_decide as Hid; [done|]. intros _ [= <-].
  intros [[??]|(_&_&?)]; congruence.
Qed.

Lemma no_adjacent_mergeable_snoc gs g g' :
  no_adjacent_mergeable (gs ++ [g]) → ¬ mergeable g g' →
  no_adjacent_mergeable (gs ++ [g; g']).
Proof.
  intros Hinv Hnew.
  replace (gs ++ [g; g']) with ((gs ++ [g]) ++ [g']) by by rewrite <- app_assoc.
  intros i g1 g2 H1 H2.
  destruct (decide (S i < length (gs ++ [g]))) as [Hlt|Hge].
  - apply (Hinv i g1 g2).
    + rewrite lookup_app_l in H1 by lia. done.
    + by rewrite lookup_app_l in H2.
  - assert (S i = length (gs ++ [g])) as Hi.
    { apply lookup_lt_Some in H2. rewrite length_app in H2; simpl in H2. lia. }
    rewrite Hi, list_lookup_middle in H2 by done.
    rewrite length_app in Hi; simpl in Hi.
    rewrite lookup_app_l in H1 by (rewrite length_app; simpl; lia).
    assert (i = length gs) as -> by lia.
    rewrite list_lookup_middle in H1 by done. by simplify_eq.
Qed.

Lemma no_adjacent_mergeable_push gs g e :
  no_adjacent_mergeable (gs ++ [g]) →
  no_adjacent_mergeable (gs ++ [push_to_group e g]).
Proof.
  intros Hinv i g1 g2 H1 H2.
  assert (S i < length (gs ++ [g])) as Hlt.
  { apply lookup_lt_Some in H2. by rewrite length_app in *. }
  rewrite length_app in Hlt; simpl in Hlt.
  rewrite lookup_app_l in H1 by lia.
  destruct (decide (S i = length gs)) as [Heq|Hne].
  - rewrite Heq, list_lookup_middle in H2 by done. simplify_eq.
    rewrite mergeable_push_r. apply (Hinv i g1 g); [by rewrite lookup_app_l by lia|].
    by rewrite Heq, list_lookup_middle.
  - rewrite lookup_app_l in H2 by lia.
    apply (Hinv i g1 g2); by rewrite lookup_app_l by lia.
Qed.

Lemma group_step_no_adjacent_mergeable gs e gs' :
  no_adjacent_mergeable gs → group_step gs e = Some gs' →
  no_adjacent_mergeable gs'.
Proof.
  destruct gs as [|g gs _] using rev_ind; [done|].
  rewrite group_step_snoc. intros Hinv Hs.
  destruct (fits_criteria g e) as [[]|] eqn:Hf; simpl in Hs; [| |done].
  - injection Hs as <-. by apply no_adjacent_mergeable_push.
  - destruct (payload_user e) as [u|] eqn:Hu; simplify_eq/=.
    apply no_adjacent_mergeable_snoc; [done|].
    by apply fits_criteria_false_mergeable.
Qed.

End grouping_more.

(** X1.  The groups of a result are maximal: two neighbouring groups are
    never both activity groups, and never two message groups of the same
    user id. *)
Theorem groupPartyLogs_groups_maximal (ls : list AppPartyLog) (gs : list GroupedLog)
    (i : nat) (g1 g2 : GroupedLog) :
  groupPartyLogs ls = Some gs →
  gs !! i = Some g1 → gs !! S i = Some g2 →
  ¬ mergeable g1 g2.
Proof.
  intros Hgs. revert i g1 g2. change (no_adjacent_mergeable gs).
  apply (groupPartyLogs_keeps no_adjacent_mergeable ls gs); [..|done].
  - by intros i g1 g2 ?.
  - intros e u _ i g1 g2 _ H2. by destruct i.
  - intros gs0 e gs1. apply group_step_no_adjacent_mergeable.
Qed.

Lemma groupPartyLogs_groups_maximal_witness :
  ¬ mergeable
      {| type := message; user := user_U1; logs := take 2 (drop 2 sample_logs) |}
      {| type := message; user := user_U2; logs := drop 4 sample_logs |}.
Proof.
  apply (groupPartyLogs_groups_maximal sample_logs sample_groups 1); reflexivity.
Defined.

(** X2.  Every group of a result is tagged with the user of its first
    member: the user is set when the group is opened and later members do
    not change it (an activity group keeps the first activity's user, also
    when later activities are by other users). *)
Theorem groupPartyLogs_group_user (ls : list AppPartyLog) (gs : list GroupedLog) :
  groupPartyLogs ls = Some gs →
  Forall (λ g, head (logs g) ≫= payload_user = Some (user g)) gs.
Proof.
  apply (groupPartyLogs_keeps
           (Forall (λ g, head (logs g) ≫= payload_user = Some (user g)))).
  - constructor.
  - intros e u Hu. by apply Forall_singleton.
  - intros gs0 e gs1. destruct gs0 as [|g gs0 _] using rev_ind; [done|].
    rewrite group_step_snoc. intros [Hgs0 Hg%Forall_inv]%Forall_app Hs.
    destruct (fits_criteria g e) as [[]|]; simpl in Hs; [| |done].
    + injection Hs as <-. apply Forall_app; split; [done|].
      apply Forall_singleton; simpl. by destruct (logs g).
    + destruct (payload_user e) as [u|] eqn:Hu; simplify_eq/=.
      apply Forall_app; split; [done|].
      apply Forall_cons; split; [done|]. by apply Forall_singleton.
Qed.

Lemma groupPartyLogs_group_user_witness :
  Forall (λ g, head (logs g) ≫= payload_user = Some (user g)) sample_groups.
Proof.
  apply (groupPartyLogs_group_user sample_logs). reflexivity.
Defined.

(** ** Grouping: when it throws *)

Section grouping_errors.
Implicit Types (gs : list GroupedLog) (g : GroupedLog).
Implicit Types (e first : AppPartyLog) (xs rest ls : list AppPartyLog).

(** After a run of the loop body the open group has the type of the entry
    just taken. *)
Lemma group_step_last_type gs e gs' :
  group_step gs e = Some gs' →
  ∃ gs1 g1, gs' = gs1 ++ [g1] ∧ type g1 = log_type e.
Proof.
  destruct gs as [|g gs _] using rev_ind; [done|].
  rewrite group_step_snoc. intros Hs.
  destruct (fits_criteria g e) as [[]|] eqn:Hf; simpl in Hs; [| |done].
  - injection Hs as <-. exists gs, (push_to_group e g). split; [done|]; simpl.
    apply fits_criteria_true in Hf as [[??]|(?&?&?)]; congruence.
  - destruct (payload_user e) as [u|]; simplify_eq/=.
    exists (gs ++ [g]), (singleton_group e u). by rewrite <- app_assoc.
Qed.

(** The loop body returns exactly when the payload it reads, if any, is
    there. *)
Lemma group_step_is_Some gs g e :
  is_Some (group_step (gs ++ [g]) e) ↔
  (reads_payload (Some (type g)) e = true → is_Some (payload_user e)).
Proof.
  rewrite group_step_snoc.
  unfold fits_criteria, reads_payload, payload_user.
  destruct (log_type e), (type g); simpl.
  - split; [by intros _ [=]|by eauto].
  - destruct (log_activity e); simpl.
    + split; [by eauto|by eauto].
    + split; [by intros [? [=]]|]. intros H. by destruct (H eq_refl) as [? [=]].
  - destruct (log_message e); simpl.
    + split; [by eauto|by eauto].
    + split; [by intros [? [=]]|]. intros H. by destruct (H eq_refl) as [? [=]].
  - destruct (log_message e) as [m|]; simpl.
    + split; [by eauto|]. intros _.
      destruct (bool_decide _); simpl; by eauto.
    + split; [by intros [? [=]]|]. intros H. by destruct (H eq_refl) as [? [=]].
Qed.

Lemma forEach_is_Some xs gs g :
  is_Some (forEach xs (gs ++ [g])) ↔ payloads_present (Some (type g)) xs = true.
Proof.
  revert gs g. induction xs as [|x xs IH]; intros gs g; simpl.
  - split; [done|by eauto].
  - pose proof (group_step_is_Some gs g x) as Hx.
    destruct (group_step (gs ++ [g]) x) as [gs1|] eqn:Hs; simpl.
    + destruct (group_step_last_type _ _ _ Hs) as (gs2 & g2 & -> & Hty).
      rewrite IH, Hty.
      destruct (reads_payload (Some (type g)) x); simpl; [|done].
      rewrite bool_decide_eq_true_2; [done|]. apply Hx; [by eauto|done].
    + split; [by intros [? [=]]|]. intros Hp. exfalso.
      apply andb_prop in Hp as [Hp _].
      assert (is_Some (None : option (list GroupedLog))) as [? [=]].
      apply Hx. intros Hr. rewrite Hr in Hp. by apply bool_decide_eq_true in Hp.
Qed.

(** A message entry without its message makes the loop body throw, whatever
    the open group is. *)
Lemma group_step_null_message gs e :
  log_type e = message → log_message e = None → group_step gs e = None.
Proof.
  intros Hty Hm. destruct gs as [|g gs _] using rev_ind; [done|].
  rewrite group_step_snoc. unfold fits_criteria, payload_user.
  rewrite Hty, Hm; simpl. by destruct (type g).
Qed.

End grouping_errors.

(** X3.  [groupPartyLogs] returns exactly when every payload it reads is
    there: the payload of the first entry, of every message entry, and of
    every activity entry that does not directly follow an activity entry.  An
    activity entry that follows an activity entry is grouped without a look
    at its payload. *)
Theorem groupPartyLogs_returns_iff (ls : list AppPartyLog) :
  is_Some (groupPartyLogs ls) ↔ payloads_present None ls = true.
Proof.
  destruct ls as [|first rest]; simpl; [split; by eauto|].
  unfold reads_payload; simpl. rewrite andb_false_r; simpl.
  destruct (payload_user first) as [u|] eqn:Hu; simpl.
  - apply (forEach_is_Some rest []).
  - split; [by intros [? [=]]|done].
Qed.

(** X4.  A message entry whose [message] is [null] makes [groupPartyLogs]
    throw, wherever the entry stands in the list. *)
Theorem groupPartyLogs_null_message (l1 l2 : list AppPartyLog) (e : AppPartyLog) :
  log_type e = message → log_message e = None →
  groupPartyLogs (l1 ++ e :: l2) = None.
Proof.
  intros Hty Hm. destruct l1 as [|first rest]; simpl.
  - unfold payload_user. by rewrite Hty, Hm.
  - destruct (payload_user first) as [u|]; simpl; [|done].
    rewrite forEach_app.
    destruct (forEach rest _) as [gs|]; simpl; [|done].
    by rewrite group_step_null_message.
Qed.

Lemma groupPartyLogs_null_message_witness :
  groupPartyLogs (sample_logs ++ broken_message :: sample_logs) = None.
Proof.
  apply (groupPartyLogs_null_message sample_logs sample_logs broken_message);
    reflexivity.
Defined.

Lemma groupPartyLogs_returns_iff_witness :
  is_Some (groupPartyLogs (take 2 sample_logs ++ [broken_activity])).
Proof.
  apply (proj2 (groupPartyLogs_returns_iff (take 2 sample_logs ++ [broken_activity]))).
  reflexivity.
Defined.

(** ** Grouping: runs and concatenation *)

Lemma forEach_activity_run rest u acc :
  Forall (λ e, log_type e = activity) rest →
  forEach rest [{| type := activity; user := u; logs := acc |}]
  = Some [{| type := activity; user := u; logs := acc ++ rest |}].
Proof.
  intros Hrest. revert acc.
  induction Hrest as [|x rest Hx _ IH]; intros acc; simpl.
  - by rewrite app_nil_r.
  - unfold group_step, fits_criteria; simpl. rewrite Hx; simpl.
    unfold push_to_group; simpl. rewrite IH. by rewrite <- app_assoc.
Qed.

(** X5.  A list of activity entries whose first entry has its payload is
    one single group, tagged with the user of the first entry; the users
    (and the payloads) of the later entries play no part. *)
Theorem groupPartyLogs_activity_run (first : AppPartyLog) (rest : list AppPartyLog)
    (u : AppUser) :
  log_type first = activity →
  payload_user first = Some u →
  Forall (λ e, log_type e = activity) rest →
  groupPartyLogs (first :: rest)
  = Some [{| type := activity; user := u; logs := first :: rest |}].
Proof.
  intros Hty Hu Hrest. simpl. rewrite Hu, Hty; simpl.
  by rewrite forEach_activity_run.
Qed.

Lemma groupPartyLogs_activity_run_witness :
  groupPartyLogs (take 2 sample_logs ++ [broken_activity])
  = Some [{| type := activity; user := user_A;
             logs := take 2 sample_logs ++ [broken_activity] |}].
Proof.
  apply (groupPartyLogs_activity_run
           (activity_log (IdNum 10) (IdNum 7) user_A "joined the room"
                         "2019-05-01 10:00:00")).
  - reflexivity.
  - reflexivity.
  - repeat constructor.
Defined.

(** X6.  Grouping distributes over concatenation at a boundary where the
    criterion fails: if the last group of [l1] and the first entry of the
    second list do not merge, the groups of the whole list are the groups of
    [l1] followed by the groups of the second list. *)
Theorem groupPartyLogs_app (l1 l2 : list AppPartyLog) (e : AppPartyLog)
    (gs1 gs2 : list GroupedLog) (g : GroupedLog) :
  groupPartyLogs l1 = Some (gs1 ++ [g]) →
  groupPartyLogs (e :: l2) = Some gs2 →
  ¬ spec_merges g e →
  groupPartyLogs (l1 ++ e :: l2) = Some (gs1 ++ [g] ++ gs2).
Proof.
  intros H1 H2 Hm. destruct l1 as [|first rest].
  { simpl in H1. by destruct gs1. }
  simpl in *. destruct (payload_user first) as [u1|]; simpl in *; [|done].
  destruct (payload_user e) as [u|] eqn:Hu; simpl in *; [|done].
  rewrite forEach_app, H1; simpl. rewrite group_step_snoc.
  destruct (fits_criteria g e) as [[]|] eqn:Hf; simpl.
  - by apply fits_criteria_true in Hf.
  - rewrite Hu; simpl.
    replace (gs1 ++ [g; singleton_group e u])
      with ((gs1 ++ [g]) ++ [] ++ [singleton_group e u])
      by (simpl; by rewrite <- app_assoc).
    rewrite forEach_prefix; simpl.
    unfold singleton_group. rewrite H2; simpl. by rewrite <- app_assoc.
  - apply fits_criteria_None in Hf as [Hf _]. congruence.
Qed.

Lemma groupPartyLogs_app_witness :
  groupPartyLogs (take 2 sample_logs ++ drop 2 sample_logs)
  = Some (take 1 sample_groups ++ drop 1 sample_groups).
Proof.
  apply (groupPartyLogs_app (take 2 sample_logs) (drop 3 sample_logs)
           (message_log (IdNum 12) (IdNum 7) (IdNum 100) user_U1 "hi"
                        "2019-05-01 10:00:10")
           [] (drop 1 sample_groups)).
  - reflexivity.
  - reflexivity.
  - vm_compute. intros [[? _]|[_ [? _]]]; discriminate.
Defined.

(** ** The reducer: further properties *)

Lemma length_assign_index xs index v :
  length (assign_index xs index v) = length xs.
Proof. unfold assign_index. case_decide; [done|apply length_insert]. Qed.

(** X7.  How an action changes the number of log entries: [logs:push] and
    [chat:init] add exactly one entry, [request:success] installs the length
    of its payload, and every other action keeps the number as it is; in
    particular [chat:success], whether or not an entry has the payload id. *)
Theorem reducer_logs_length (state : State) (action : Action) :
  length (state_logs (reducer state action)) =
    match action with
    | logs_push _ | chat_init _ => S (length (state_logs state))
    | request_success payload_logs => length payload_logs
    | _ => length (state_logs state)
    end.
Proof.
  destruct action; simpl; try done.
  - rewrite length_app; simpl. lia.
  - rewrite length_app; simpl. lia.
  - apply length_assign_index.
Qed.

(** The list of the reducer is the element list of the array that the
    [chat:success] branch leaves. *)
Lemma chat_success_logs_elements state pid v :
  elements (chat_success_logs (state_logs state) pid v)
  = state_logs (reducer state (chat_success pid v)).
Proof.
  unfold chat_success_logs; simpl. unfold assign_index.
  destruct (findIndex_range (λ log, bool_decide (log_id log = pid)) (state_logs state))
    as [Hm|Hr].
  - rewrite Hm. by rewrite decide_True, decide_True by lia.
  - by rewrite decide_False, decide_False by lia.
Qed.

(** X8.  [chat:success] for an id that no entry has is not guarded in the
    source: [findIndex] yields [-1] and the assignment goes to the key ["-1"].
    The new logs array has the elements of the old one, in the same number and
    order, and holds the payload as its own property ["-1"]; the other fields
    of the state are as before. *)
Theorem chat_success_unknown_id (state : State) (pid : AppId) (v : AppPartyLog) :
  Forall (λ y, log_id y ≠ pid) (state_logs state) →
  findIndex (λ log, bool_decide (log_id log = pid)) (state_logs state) = (-1)%Z ∧
  chat_success_logs (state_logs state) pid v
    = {| elements := state_logs state; own_minus_one := Some v |} ∧
  state_logs (reducer state (chat_success pid v)) = state_logs state ∧
  state_message (reducer state (chat_success pid v)) = state_message state ∧
  isSending (reducer state (chat_success pid v)) = isSending state ∧
  isLoading (reducer state (chat_success pid v)) = isLoading state.
Proof.
  intros Hall. destruct (chat_success_missing_id state pid v Hall) as [Hidx Hlogs].
  split_and!; try done.
  unfold chat_success_logs. by rewrite Hidx, decide_True.
Qed.

Lemma chat_success_unknown_id_witness :
  chat_success_logs (state_logs sample_state) (IdStr "no-such-id") broken_message
  = {| elements := state_logs sample_state; own_minus_one := Some broken_message |}.
Proof.
  refine (proj1 (proj2 (chat_success_unknown_id sample_state (IdStr "no-such-id")
                          broken_message _))).
  repeat constructor; vm_compute; discriminate.
Defined.

Lemma run_logs_push state (pushed : list AppPartyLog) :
  run state (logs_push <$> pushed) =
    {| state_logs := state_logs state ++ pushed;
       state_message := state_message state;
       isSending := isSending state;
       isLoading := isLoading state |}.
Proof.
  unfold run. revert state. induction pushed as [|x pushed IH]; intros state; simpl.
  - rewrite app_nil_r. by destruct state.
  - rewrite IH; simpl. by rewrite <- app_assoc.
Qed.

Lemma handleMessage_dispatched env :
  isSubmittable env = true →
  dispatched (handleMessage env) =
    [chat_init (pending_log env);
     match response env with
     | response_err => chat_error (IdStr (uuid_1 env))
     | response_ok data => chat_success (IdStr (uuid_1 env)) data
     end].
Proof.
  intros Hs. unfold handleMessage. rewrite Hs; simpl. by destruct (response env).
Qed.

(** X9.  A whole submission, seen by the reducer: [handleMessage] dispatches
    [chat:init] before the request, other clients' entries may be pushed while
    the request is under way, and the answer is dispatched last.  When no entry
    of the state has the fresh id, the log list ends up as the old entries,
    then the server's entry (the pending entry, had the request failed), then
    the entries pushed meanwhile; the input text is empty, the other fields
    are untouched. *)
Theorem submission_reconciles (state : State) (env : SubmitEnv)
    (pushed : list AppPartyLog) :
  isSubmittable env = true →
  Forall (λ x, log_id x ≠ IdStr (uuid_1 env)) (state_logs state) →
  run state (take 1 (dispatched (handleMessage env))
             ++ (logs_push <$> pushed)
             ++ drop 1 (dispatched (handleMessage env)))
  = {| state_logs :=
         state_logs state
         ++ [match response env with
             | response_err => pending_log env
             | response_ok data => data
             end]
         ++ pushed;
       state_message := {| text := "" |};
       isSending := isSending state;
       isLoading := isLoading state |}.
Proof.
  intros Hs Hfresh. rewrite handleMessage_dispatched by done; simpl.
  unfold run; simpl. rewrite foldl_app. fold (run (reducer state (chat_init (pending_log env)))
                                                  (logs_push <$> pushed)).
  rewrite run_logs_push; simpl.
  destruct (response env) as [|data]; simpl; [by rewrite <- app_assoc|].
  f_equal. rewrite <- (app_assoc (state_logs state)); simpl.
  rewrite findIndex_first.
  - rewrite assign_index_nat.
    replace (length (state_logs state)) with (length (state_logs state) + 0) by lia.
    by rewrite insert_app_r.
  - eapply Forall_impl; [done|]. intros y Hy; simpl. by apply bool_decide_eq_false.
  - by apply bool_decide_eq_true.
Qed.

Lemma submission_reconciles_witness :
  state_logs
    (run init (take 1 (dispatched (handleMessage sample_submit))
               ++ (logs_push <$> take 2 sample_logs)
               ++ drop 1 (dispatched (handleMessage sample_submit))))
  = take 1 (drop 2 sample_logs) ++ take 2 sample_logs.
Proof.
  rewrite (submission_reconciles init sample_submit (take 2 sample_logs));
    [reflexivity|reflexivity|constructor].
Defined.

(** X10.  A second delivery of the same [chat:success], when the pending
    entry was the only entry with the payload id, changes no element of the
    log list and no other field.  It is not without trace, though: when the
    server's entry has the id of the pending entry, the second delivery
    overwrites that entry with itself; when it has another id, no entry has
    the payload id any more, and the second delivery stores the payload as the
    own property ["-1"] of the logs array. *)
Theorem chat_success_twice (state : State) (pid : AppId)
    (authoritative pending : AppPartyLog) (before after : list AppPartyLog) :
  state_logs state = before ++ pending :: after →
  log_id pending = pid →
  Forall (λ x, log_id x ≠ pid) before →
  Forall (λ x, log_id x ≠ pid) after →
  let state1 := reducer state (chat_success pid authoritative) in
  let state2 := reducer state1 (chat_success pid authoritative) in
  state_logs state2 = state_logs state1 ∧
  state_message state2 = state_message state1 ∧
  isSending state2 = isSending state1 ∧
  isLoading state2 = isLoading state1 ∧
  chat_success_logs (state_logs state1) pid authoritative
    = {| elements := state_logs state1;
         own_minus_one :=
           if bool_decide (log_id authoritative = pid) then None
           else Some authoritative |}.
Proof.
  intros Hlogs Hpid Hbefore Hafter state1 state2.
  pose proof (chat_success_first state pid authoritative _ _ _ Hlogs Hbefore Hpid) as H1.
  fold state1 in H1.
  assert (state_logs state2 = state_logs state1) as Hsame.
  { destruct (decide (log_id authoritative = pid)) as [Heq|Hne].
    - unfold state2.
      rewrite (chat_success_first state1 pid authoritative before authoritative after);
        done.
    - apply chat_success_missing_id. rewrite H1.
      apply Forall_app; split; [done|]. by apply Forall_cons. }
  split_and!; try done.
  case_bool_decide as Hid.
  - pose proof (chat_success_logs_elements state1 pid authoritative) as He.
    fold state2 in He. rewrite Hsame in He.
    unfold chat_success_logs in He |- *. rewrite H1 in He |- *.
    rewrite findIndex_first in He |- *;
      [|by eapply Forall_impl; [done|]; intros y Hy; simpl; apply bool_decide_eq_false
       |by apply bool_decide_eq_true
       |by eapply Forall_impl; [done|]; intros y Hy; simpl; apply bool_decide_eq_false
       |by apply bool_decide_eq_true].
    rewrite decide_False in He |- * by lia. simpl in He. by rewrite He.
  - unfold chat_success_logs.
    destruct (chat_success_missing_id state1 pid authoritative) as [-> _].
    { rewrite H1. apply Forall_app; split; [done|]. by apply Forall_cons. }
    by rewrite decide_True.
Qed.

Lemma chat_success_twice_witness :
  chat_success_logs
    (state_logs (reducer sample_state
                   (chat_success (log_id (pending_log sample_submit)) broken_message)))
    (log_id (pending_log sample_submit)) broken_message
  = {| elements := take 2 sample_logs ++ [broken_message];
       own_minus_one := Some broken_message |}.
Proof.
  refine (proj2 (proj2 (proj2 (proj2
            (chat_success_twice sample_state _ broken_message
               (pending_log sample_submit) (take 2 sample_logs) [] _ _ _ _))))).
  - reflexivity.
  - reflexivity.
  - repeat constructor; vm_compute; discriminate.
  - constructor.
Defined.

(** X11.  No action writes [isSending]: after any sequence of actions
    the field is what it was, so from [init] it stays empty. *)
Theorem isSending_never_written (state : State) (actions : list Action) :
  isSending (run state actions) = isSending state ∧
  isSending (run init actions) = ∅.
Proof.
  assert (∀ s, isSending (run s actions) = isSending s) as H.
  { unfold run. induction actions as [|a actions IH]; intros s; simpl; [done|].
    rewrite IH. by destruct a. }
  split; [apply H|]. by rewrite H.
Qed.

(** ** Scrolling and the unread note *)

(** X12.  The layout effect does exactly one of two things before it stores
    the scroll distance: it scrolls to the bottom, or it raises the unread
    note; it never lowers the note.  After an incoming log it scrolls to the
    bottom when the list was scrolled to the bottom as the log arrived, and
    raises the note otherwise, whatever the refs held before and whether or
    not the window is visible. *)
Theorem layoutEffect_after_incoming_log (refs : Refs)
    (isWindowVisible scrolledToBottom : bool) (event_log : AppPartyLog) :
  (layoutEffect refs = [scrollToBottom_chatbar; store_lastScrollDistanceFromBottom] ∨
   layoutEffect refs = [setHasUnreadMessages true; store_lastScrollDistanceFromBottom]) ∧
  layoutEffect
    (refs_after (pusher_log_handler isWindowVisible scrolledToBottom event_log) refs)
  = [if scrolledToBottom then scrollToBottom_chatbar else setHasUnreadMessages true;
     store_lastScrollDistanceFromBottom].
Proof.
  split.
  - unfold layoutEffect. destruct (isReceivingRef refs), (shouldScrollToBottomRef refs);
      simpl; auto.
  - unfold pusher_log_handler, refs_after. rewrite foldl_app; simpl.
    assert (∀ r, foldl write_ref r
                   (if negb isWindowVisible && bool_decide (log_type event_log = message)
                    then [play_idleAudio] else []) = r) as ->.
    { intros r. by destruct (negb isWindowVisible && _). }
    unfold layoutEffect; simpl. by destruct scrolledToBottom.
Qed.

(** X13.  After the user's own submission the layout effect scrolls to the
    bottom and does not raise the unread note, whatever the refs held
    before. *)
Theorem layoutEffect_after_submission (refs : Refs) (env : SubmitEnv) :
  isSubmittable env = true →
  layoutEffect (refs_after (handleMessage env) refs)
  = [scrollToBottom_chatbar; store_lastScrollDistanceFromBottom].
Proof.
  intros Hs. unfold handleMessage, refs_after. rewrite Hs; simpl.
  by destruct (response env).
Qed.

Lemma layoutEffect_after_submission_witness :
  layoutEffect
    (refs_after (handleMessage sample_submit)
       {| shouldScrollToBottomRef := false; isReceivingRef := true |})
  = [scrollToBottom_chatbar; store_lastScrollDistanceFromBottom].
Proof.
  apply (layoutEffect_after_submission _ sample_submit). reflexivity.
Defined.

(** ** The initial load *)

(** X14.  The initial load sets [isLoading] while the request is under way
    and clears it with the answer.  A successful load installs the server's
    list as it is: whatever was dispatched while the request was under way,
    entries pushed or sent meanwhile are in the list only if the server's list
    has them.  A failed load changes nothing but [isLoading]. *)
Theorem loadLogs_outcome (state : State) (party_id : AppId)
    (data : list AppPartyLog) (meanwhile : list Action) :
  isLoading (run state (take 1 (load_dispatched (loadLogs party_id (load_ok data)))))
    = true ∧
  state_logs
    (run state (take 1 (load_dispatched (loadLogs party_id (load_ok data)))
                ++ meanwhile
                ++ drop 1 (load_dispatched (loadLogs party_id (load_ok data)))))
    = data ∧
  isLoading
    (run state (take 1 (load_dispatched (loadLogs party_id (load_ok data)))
                ++ meanwhile
                ++ drop 1 (load_dispatched (loadLogs party_id (load_ok data)))))
    = false ∧
  run state (load_dispatched (loadLogs party_id load_err))
    = {| state_logs := state_logs state; state_message := state_message state;
         isSending := isSending state; isLoading := false |}.
Proof.
  unfold run; simpl. rewrite !foldl_app; simpl. done.
Qed.

(** ** The season selection *)

(** X15.  When no season is selected, a successful load of a non-empty list
    selects its first season.  The memoized [group] follows when the id of
    that season is not [-1]: the dependency has changed, the lookup runs again
    and finds that very season.  When the id is [-1] the dependency has not
    changed and [group] stays what it was. *)
Theorem ShowModal_selects_first (state : ShowModal.State) (cell : ShowModal.Memo)
    (g : ShowModal.AppShowGroup) (gs : list ShowModal.AppShowGroup) :
  ShowModal.selectedGroupId state = ShowModal.none_selected →
  ShowModal.memo_dep cell = ShowModal.selectedGroupId state →
  let state' := ShowModal.reducer state (ShowModal.request_success (g :: gs)) in
  ShowModal.selectedGroupId state' = ShowModal.id g ∧
  (ShowModal.id g ≠ ShowModal.none_selected →
   ShowModal.memo_value (ShowModal.useMemo_group (Some cell) state') = Some g) ∧
  (ShowModal.id g = ShowModal.none_selected →
   ShowModal.useMemo_group (Some cell) state' = cell).
Proof.
  intros Hsel Hcell state'.
  assert (ShowModal.selectedGroupId state' = ShowModal.id g) as Hnew.
  { unfold state'; simpl. by rewrite Hsel, bool_decide_eq_true_2. }
  split_and!; [done| |].
  - intros Hg. unfold ShowModal.useMemo_group.
    rewrite bool_decide_eq_false_2 by congruence; simpl.
    unfold ShowModal.selected_group. rewrite Hnew. unfold state'; simpl.
    by rewrite bool_decide_eq_true_2.
  - intros Hg. unfold ShowModal.useMemo_group.
    by rewrite bool_decide_eq_true_2 by congruence.
Qed.

Lemma ShowModal_selects_first_witness :
  ShowModal.memo_value
    (ShowModal.render_from (ShowModal.initial_state None)
       [ShowModal.request_init;
        ShowModal.request_success [ShowModal.season_2; ShowModal.season_1]]).1
  = Some ShowModal.season_2.
Proof.
  refine (proj1 (proj2 (ShowModal_selects_first
                          (ShowModal.reducer (ShowModal.initial_state None)
                             ShowModal.request_init)
                          (ShowModal.useMemo_group None (ShowModal.initial_state None))
                          ShowModal.season_2 [ShowModal.season_1] _ _)) _).
  - reflexivity.
  - reflexivity.
  - vm_compute. discriminate.
Defined.

(** X16.  The initial selection is [initialSelectedGroupId || -1]: an
    initial id of [0] is falsy and counts as no selection, like [-1] and a
    missing one.  So after the first load of a non-empty list the selected id
    is the initial id when that is neither [0] nor [-1], and the id of the
    first season otherwise. *)
Theorem ShowModal_initial_selection (initialSelectedGroupId : option Z)
    (g : ShowModal.AppShowGroup) (gs : list ShowModal.AppShowGroup) :
  ShowModal.selectedGroupId
    (ShowModal.reducer
       (ShowModal.reducer (ShowModal.initial_state initialSelectedGroupId)
          ShowModal.request_init)
       (ShowModal.request_success (g :: gs)))
  = match initialSelectedGroupId with
    | Some n => if bool_decide (n = 0 ∨ n = -1)%Z then ShowModal.id g else IdNum n
    | None => ShowModal.id g
    end.
Proof.
  destruct initialSelectedGroupId as [n|]; simpl; [|done].
  unfold ShowModal.initial_selectedGroupId, ShowModal.none_selected.
  destruct (decide (n = 0%Z)) as [->|H0]; [done|].
  rewrite (bool_decide_eq_false_2 (n = 0%Z)) by done.
  destruct (decide (n = (-1)%Z)) as [->|H1]; [done|].
  rewrite bool_decide_eq_false_2 by congruence.
  rewrite bool_decide_eq_false_2 by lia. done.
Qed.

(** X17.  A selection made before the load is kept by [request:success],
    and the memoized [group] is not looked up again: the dependency is
    unchanged, so [group] stays what it was before the load, whatever the
    loaded list holds.  For a selection given through
    [initialSelectedGroupId] (neither [0] nor [-1]) it was looked up in the
    empty list of the first render, so it is still [undefined] after the
    load, also when a loaded season has the selected id. *)
Theorem ShowModal_kept_selection (state : ShowModal.State) (cell : ShowModal.Memo)
    (gs : list ShowModal.AppShowGroup) :
  ShowModal.selectedGroupId state ≠ ShowModal.none_selected →
  ShowModal.memo_dep cell = ShowModal.selectedGroupId state →
  ShowModal.selectedGroupId (ShowModal.reducer state (ShowModal.request_success gs))
    = ShowModal.selectedGroupId state ∧
  ShowModal.useMemo_group (Some cell)
    (ShowModal.reducer state (ShowModal.request_success gs)) = cell ∧
  (∀ n : Z, n ≠ 0%Z → n ≠ (-1)%Z →
     ShowModal.memo_value
       (ShowModal.render_from (ShowModal.initial_state (Some n))
          [ShowModal.request_init; ShowModal.request_success gs]).1 = None).
Proof.
  intros Hsel Hcell.
  assert (ShowModal.selectedGroupId
            (ShowModal.reducer state (ShowModal.request_success gs))
          = ShowModal.selectedGroupId state) as Hkept.
  { simpl. by rewrite bool_decide_eq_false_2. }
  split_and!; [done| |].
  - unfold ShowModal.useMemo_group. by rewrite Hkept, bool_decide_eq_true_2.
  - intros n H0 H1. unfold ShowModal.render_from; simpl.
    unfold ShowModal.initial_selectedGroupId, ShowModal.none_selected.
    rewrite (bool_decide_eq_false_2 (n = 0%Z)) by done.
    rewrite (bool_decide_eq_true_2 (IdNum n = IdNum n)) by done; simpl.
    rewrite (bool_decide_eq_false_2 (IdNum n = IdNum (-1))) by congruence.
    by rewrite (bool_decide_eq_true_2 (IdNum n = IdNum n)) by done.
Qed.

Lemma ShowModal_kept_selection_witness :
  ShowModal.memo_value
    (ShowModal.render_from (ShowModal.initial_state (Some 5%Z))
       [ShowModal.request_init;
        ShowModal.request_success [ShowModal.season_1; ShowModal.season_2]]).1
  = None.
Proof.
  refine (proj2 (proj2 (ShowModal_kept_selection
                          (ShowModal.initial_state (Some 5%Z))
                          (ShowModal.useMemo_group None (ShowModal.initial_state (Some 5%Z)))
                          [ShowModal.season_1; ShowModal.season_2] _ _))
            5%Z _ _).
  - vm_compute. discriminate.
  - reflexivity.
  - lia.
  - lia.
Defined.

(** ** The broadcast event: one channel per party *)

(** X18.  Two parties are given the same channel exactly when they have the
    same id. *)
Theorem broadcastOn_inj (party1 party2 : PartyState.Party) :
  PartyState.broadcastOn party1 = PartyState.broadcastOn party2
  ↔ PartyState.id party1 = PartyState.id party2.
Proof.
  unfold PartyState.broadcastOn. split; [|by intros ->].
  intros [= H]. simpl in H. by apply pretty_Z_inj.
Qed.
